(** * The minibatch cycling generator

    A shallow embedding of the notebook helper

<<
    def generator(arrays, batch_size):
      # docstring: Generate batches, one with respect to each array's first axis.
      starts = [0] * len(arrays)  # pointers to where we are in iteration
      while True:
        batches = []
        for i, array in enumerate(arrays):
          start = starts[i]
          stop = start + batch_size
          diff = stop - array.shape[0]
          if diff <= 0:
            batch = array[start:stop]
            starts[i] += batch_size
          else:
            batch = np.concatenate((array[start:], array[:diff]))
            starts[i] = diff
          batches.append(batch)
        yield batches
>>

    An array is the list of its rows along the first axis; Python integers
    are unbounded, so cursors and the batch size live in [Z].  A raised
    exception is [None]. *)

From stdpp Require Import base numbers option list.

Local Open Scope Z_scope.

(** ** First-axis slicing and concatenation *)

Section Slicing.
Context {A : Type}.

(** How a slice bound is brought into [0, len] when the step is 1: a
    negative bound counts from the end, and both sides saturate. *)
Definition adjust_index (len i : Z) : Z :=
  if bool_decide (i < 0) then Z.max 0 (i + len) else Z.min i len.

(** [array[start:stop]]; an omitted bound is [None]. *)
Definition slice (array : list A) (start stop : option Z) : list A :=
  let len := Z.of_nat (length array) in
  let lo := adjust_index len (default 0 start) in
  let hi := adjust_index len (default len stop) in
  take (Z.to_nat (hi - lo)) (drop (Z.to_nat lo) array).

(** [array.shape[0]] *)
Definition shape0 (array : list A) : Z := Z.of_nat (length array).

(** [np.concatenate((a, b))] along the first axis. *)
Definition concatenate (a b : list A) : list A := a ++ b.
End Slicing.

(** ** Indexing a Python list of cursors *)

(** [starts[i]] raises IndexError outside the list. *)
Definition getitem (starts : list Z) (i : nat) : option Z := starts !! i.

(** [starts[i] = v] raises IndexError outside the list. *)
Definition setitem (starts : list Z) (i : nat) (v : Z) : option (list Z) :=
  if bool_decide (i < length starts)%nat then Some (<[i:=v]> starts) else None.

(** ** The generator *)

Section Generator.
Context {A : Type}.

(** What a suspended generator holds: its two arguments and [starts]. *)
Record gen : Type := Gen {
  arrays : list (list A);
  batch_size : Z;
  starts : list Z
}.

(** [generator(arrays, batch_size)]: the state up to the first [while]. *)
Definition generator (arrays : list (list A)) (batch_size : Z) : gen :=
  Gen arrays batch_size (replicate (length arrays) 0).

(** The [for i, array in enumerate(arrays)] loop, from index [i] on,
    over the arrays still to visit. *)
Fixpoint for_arrays (batch_size : Z) (i : nat) (todo : list (list A))
    (starts : list Z) (batches : list (list A))
    : option (list (list A) * list Z) :=
  match todo with
  | [] => Some (batches, starts)
  | array :: todo =>
      start ← getitem starts i;
      let stop := start + batch_size in
      let diff := stop - shape0 array in
      if bool_decide (diff ≤ 0) then
        let batch := slice array (Some start) (Some stop) in
        cur ← getitem starts i;
        starts ← setitem starts i (cur + batch_size);
        for_arrays batch_size (S i) todo starts (batches ++ [batch])
      else
        let batch :=
          concatenate (slice array (Some start) None)
                      (slice array None (Some diff)) in
        starts ← setitem starts i diff;
        for_arrays batch_size (S i) todo starts (batches ++ [batch])
  end.

(** One [next(data)]: one turn of the [while True] loop up to [yield]. *)
Definition next (g : gen) : option (list (list A) * gen) :=
  '(batches, starts') ← for_arrays (batch_size g) 0 (arrays g) (starts g) [];
  Some (batches, Gen (arrays g) (batch_size g) starts').

(** [k] successive calls of [next]: what each one yielded, in order, and
    the generator afterwards. *)
Fixpoint pulls (k : nat) (g : gen) : option (list (list (list A)) * gen) :=
  match k with
  | O => Some ([], g)
  | S k =>
      '(batches, g) ← next g;
      '(rest, g) ← pulls k g;
      Some (batches :: rest, g)
  end.

(** *** The same code read as a relation

    [for_arrays_to], [yields] and [runs] say what the loop, one call and a
    sequence of calls may produce, rule by rule: one rule per branch of
    the [if], with the test of the branch as its premise.  [starts[i]]
    outside the list has no rule. *)

Inductive for_arrays_to (batch_size : Z)
    : nat → list (list A) → list Z → list (list A)
      → list (list A) → list Z → Prop :=
  | for_exhausted i starts batches :
      for_arrays_to batch_size i [] starts batches batches starts
  | for_slice i array todo starts batches start batches' starts' :
      starts !! i = Some start →
      start + batch_size - shape0 array ≤ 0 →
      for_arrays_to batch_size (S i) todo
        (<[i:=start + batch_size]> starts)
        (batches ++ [slice array (Some start) (Some (start + batch_size))])
        batches' starts' →
      for_arrays_to batch_size i (array :: todo) starts batches
        batches' starts'
  | for_wrap i array todo starts batches start batches' starts' :
      starts !! i = Some start →
      0 < start + batch_size - shape0 array →
      for_arrays_to batch_size (S i) todo
        (<[i:=start + batch_size - shape0 array]> starts)
        (batches
         ++ [concatenate (slice array (Some start) None)
               (slice array None
                  (Some (start + batch_size - shape0 array)))])
        batches' starts' →
      for_arrays_to batch_size i (array :: todo) starts batches
        batches' starts'.

Inductive yields : gen → list (list A) → gen → Prop :=
  | yields_batches g batches starts' :
      for_arrays_to (batch_size g) 0 (arrays g) (starts g) [] batches starts' →
      yields g batches (Gen (arrays g) (batch_size g) starts').


(** *** One array followed on its own

    The loop body as a function of one array and its cursor, and the
    cursor and batch it gives call after call.  These are proof devices:
    [next_advance] and [pulls_spec] tie them to the code above. *)

Definition advance (batch_size : Z) (array : list A) (start : Z)
    : list A * Z :=
  let stop := start + batch_size in
  let diff := stop - shape0 array in
  if bool_decide (diff ≤ 0) then
    (slice array (Some start) (Some stop), start + batch_size)
  else
    (concatenate (slice array (Some start) None)
                 (slice array None (Some diff)), diff).

Fixpoint cursor_at (batch_size : Z) (array : list A) (start : Z) (k : nat)
    : Z :=
  match k with
  | O => start
  | S k => cursor_at batch_size array (advance batch_size array start).2 k
  end.

Definition batch_at (batch_size : Z) (array : list A) (start : Z) (k : nat)
    : list A :=
  (advance batch_size array (cursor_at batch_size array start k)).1.

(** The cursors line up with the arrays. *)
Definition wf (g : gen) : Prop := length (starts g) = length (arrays g).
End Generator.

Arguments advance : simpl never.

(** ** Reading what a run yielded *)

(** The batches of array [i], call after call. *)
Definition column {A} (i : nat) (yields : list (list (list A))) : list (list A) :=
  omap (λ batches, batches !! i) yields.

(** Every row a run produced, in the order produced. *)
Definition rows {A} (yields : list (list (list A))) : list A :=
  concat (concat yields).

(** [ceil(L/B)] for a positive [B]. *)
Definition ceil_div (L B : Z) : Z := (L + B - 1) / B.

Arguments gen : clear implicits.

(** ** The training cells that draw from the generator

<<
    for _ in range(inference.n_iter):
      X_batch, y_batch = next(data)
      info_dict = inference.update({X: X_batch, y_ph: y_batch})
      inference.print_progress(info_dict)
>>
    and, in the cell after it,
<<
    for _ in range(inference.n_iter // 10):
      X_batch, y_batch = next(data)
      for _ in range(10):
        info_dict = inference.update({X: X_batch, y_ph: y_batch})

      inference.print_progress(info_dict)
>>

    The inference object belongs to a library: its state and its two
    methods are parameters.  Both cells draw from the one generator
    [data]. *)

Section Training.
Context {A Inf Info : Type}.
Variable update : Inf → list A → list A → Inf * Info.
Variable print_progress : Inf → Info → Inf.

(** [X_batch, y_batch = next(data)]: unpacking raises ValueError unless
    exactly two batches were yielded. *)
Definition next_pair (data : gen A) : option (list A * list A * gen A) :=
  '(batches, data) ← next data;
  match batches with
  | [X_batch; y_batch] => Some (X_batch, y_batch, data)
  | _ => None
  end.

(** [n] turns of the first cell's loop. *)
Fixpoint train_turns (n : nat) (data : gen A) (inference : Inf)
    (info_dict : option Info) : option (gen A * Inf * option Info) :=
  match n with
  | O => Some (data, inference, info_dict)
  | S n =>
      '(X_batch, y_batch, data) ← next_pair data;
      let '(inference, info) := update inference X_batch y_batch in
      let inference := print_progress inference info in
      train_turns n data inference (Some info)
  end.

(** [for _ in range(n_iter)]: a count that is not positive gives no turn. *)
Definition train (n_iter : Z) (data : gen A) (inference : Inf)
    (info_dict : option Info) : option (gen A * Inf * option Info) :=
  train_turns (Z.to_nat n_iter) data inference info_dict.

(** [for _ in range(m): info_dict = inference.update(...)] *)
Fixpoint update_times (m : nat) (X_batch y_batch : list A) (inference : Inf)
    (info_dict : option Info) : Inf * option Info :=
  match m with
  | O => (inference, info_dict)
  | S m =>
      let '(inference, info) := update inference X_batch y_batch in
      update_times m X_batch y_batch inference (Some info)
  end.

(** [n] turns of the second cell's loop; [print_progress(info_dict)] with
    the name unbound raises NameError. *)
Fixpoint train_repeated_turns (n : nat) (data : gen A) (inference : Inf)
    (info_dict : option Info) : option (gen A * Inf * option Info) :=
  match n with
  | O => Some (data, inference, info_dict)
  | S n =>
      '(X_batch, y_batch, data) ← next_pair data;
      let '(inference, info_dict) :=
        update_times 10 X_batch y_batch inference info_dict in
      info ← info_dict;
      let inference := print_progress inference info in
      train_repeated_turns n data inference (Some info)
  end.

(** [for _ in range(n_iter // 10)] *)
Definition train_repeated (n_iter : Z) (data : gen A) (inference : Inf)
    (info_dict : option Info) : option (gen A * Inf * option Info) :=
  train_repeated_turns (Z.to_nat (n_iter `div` 10)) data inference info_dict.

(** What one turn does with a pair of batches, for reading a run as a
    fold over the pairs drawn. *)
Definition feed_once (inference : Inf) (pair : list A * list A) : Inf :=
  let '(inference, info) := update inference pair.1 pair.2 in
  print_progress inference info.

Definition feed_ten (inference : Inf) (pair : list A * list A) : Inf :=
  let '(inference, info_dict) :=
    update_times 10 pair.1 pair.2 inference None in
  match info_dict with
  | Some info => print_progress inference info
  | None => inference
  end.
End Training.

(** The pairs [(X_batch, y_batch)] of a run over two arrays. *)
Definition pairs {A} (yields : list (list (list A))) : list (list A * list A) :=
  zip (column 0 yields) (column 1 yields).

(** [n] copies of an array end to end. *)
Definition cycled {A} (n : nat) (l : list A) : list A := concat (replicate n l).

(** ** The loop as a zip *)

Section Loop.
Context {A : Type}.
Implicit Types (array : list A) (todo : list (list A)) (g : gen A).

Lemma for_arrays_zip B todo : ∀ i sts batches,
  length sts = (i + length todo)%nat →
  for_arrays B i todo sts batches =
    Some (batches ++ zip_with (λ a s, (advance B a s).1) todo (drop i sts),
          take i sts ++ zip_with (λ a s, (advance B a s).2) todo (drop i sts)).
Proof.
  induction todo as [|array todo IH]; intros i sts batches Hlen; simpl.
  - rewrite app_nil_r. simpl in Hlen.
    rewrite take_ge by lia. by rewrite app_nil_r.
  - simpl in Hlen.
    destruct (lookup_lt_is_Some_2 sts i) as [start Hstart]; [lia|].
    unfold getitem, setitem. rewrite Hstart. simpl.
    rewrite (drop_S _ _ _ Hstart). simpl. unfold advance at 1 3.
    rewrite !(bool_decide_true (i < length sts)%nat) by lia.
    case_bool_decide; simpl.
    all: rewrite IH by (rewrite length_insert; lia).
    all: rewrite drop_insert_lt by lia.
    all: rewrite take_insert_lt by lia.
    all: rewrite (take_S_r _ _ _ Hstart).
    all: rewrite insert_app_r_alt by (rewrite length_take; lia).
    all: rewrite length_take, Nat.min_l by lia.
    all: rewrite Nat.sub_diag; simpl.
    all: by rewrite <- !app_assoc.
Qed.

Lemma next_advance g :
  wf g →
  next g =
    Some (zip_with (λ a s, (advance (batch_size g) a s).1) (arrays g) (starts g),
          Gen (arrays g) (batch_size g)
            (zip_with (λ a s, (advance (batch_size g) a s).2)
               (arrays g) (starts g))).
Proof.
  intros Hwf. unfold next.
  rewrite for_arrays_zip by (unfold wf in Hwf; lia).
  by rewrite drop_0.
Qed.

Lemma next_wf g batches g' : wf g → next g = Some (batches, g') → wf g'.
Proof.
  intros Hwf. rewrite next_advance by done. intros [= _ <-].
  unfold wf in *. simpl. rewrite length_zip_with. lia.
Qed.

(** What [k] calls give, array by array. *)
Lemma pulls_spec k : ∀ g,
  wf g →
  ∃ yields g',
    pulls k g = Some (yields, g') ∧
    wf g' ∧ arrays g' = arrays g ∧ batch_size g' = batch_size g ∧
    length yields = k ∧
    Forall (λ batches, length batches = length (arrays g)) yields ∧
    ∀ i array start,
      arrays g !! i = Some array → starts g !! i = Some start →
      starts g' !! i = Some (cursor_at (batch_size g) array start k) ∧
      ∀ j, (j < k)%nat →
        ∃ batches, yields !! j = Some batches ∧
          batches !! i = Some (batch_at (batch_size g) array start j).
Proof.
  induction k as [|k IH]; intros g Hwf.
  - exists [], g. simpl. repeat split; try done. lia.
  - simpl. rewrite next_advance by done. simpl.
    set (g1 := Gen _ _ _).
    assert (wf g1) as Hwf1.
    { unfold wf in *. simpl. rewrite length_zip_with. lia. }
    destruct (IH g1 Hwf1) as (yields & g' & -> & Hwf' & Ha & Hb & Hlen & Hall & Hslot).
    simpl. eexists _, g'. split; [done|].
    assert (∀ i array start,
      arrays g !! i = Some array → starts g !! i = Some start →
      starts g1 !! i = Some (advance (batch_size g) array start).2) as Hnext.
    { intros i a s Ha' Hs'. simpl. rewrite lookup_zip_with. by rewrite Ha', Hs'. }
    split; [done|]. split; [done|]. split; [done|].
    split; [simpl; by rewrite Hlen|]. split.
    { constructor; [|done]. unfold wf in Hwf. rewrite length_zip_with. lia. }
    intros i a s Ha' Hs'.
    destruct (Hslot i a (advance (batch_size g) a s).2) as [Hcur Hbat];
      [done|by apply Hnext|].
    split; [done|]. intros [|j] Hj; simpl.
    * eexists. split; [done|]. rewrite lookup_zip_with. by rewrite Ha', Hs'.
    * apply Hbat. lia.
Qed.
End Loop.

(** ** Slices with bounds that are not negative *)

Section SliceFacts.
Context {A : Type}.
Implicit Types (l : list A).

Lemma adjust_index_nonneg len i : 0 ≤ i → adjust_index len i = Z.min i len.
Proof. intros. unfold adjust_index. by rewrite bool_decide_false by lia. Qed.

Lemma slice_between l a b :
  0 ≤ a → 0 ≤ b →
  slice l (Some a) (Some b)
  = take (Z.to_nat b - Z.to_nat a) (drop (Z.to_nat a) l).
Proof.
  intros Ha Hb. unfold slice. simpl.
  rewrite !adjust_index_nonneg by done.
  destruct (decide (a ≤ Z.of_nat (length l))) as [Hal|Hal].
  - rewrite (Z.min_l a) by lia.
    destruct (decide (b ≤ Z.of_nat (length l))) as [Hbl|Hbl].
    + rewrite Z.min_l by lia. f_equal. lia.
    + rewrite Z.min_r by lia.
      rewrite !take_ge; [done|rewrite length_drop; lia..].
  - rewrite (Z.min_r a) by lia. rewrite Nat2Z.id, drop_all.
    rewrite (drop_ge l (Z.to_nat a)) by lia. by rewrite !take_nil.
Qed.

Lemma slice_from l a : 0 ≤ a → slice l (Some a) None = drop (Z.to_nat a) l.
Proof.
  intros Ha. unfold slice. simpl.
  rewrite !adjust_index_nonneg by lia. rewrite Z.min_id.
  destruct (decide (a ≤ Z.of_nat (length l))) as [Hal|Hal].
  - rewrite Z.min_l by lia. apply take_ge. rewrite length_drop. lia.
  - rewrite Z.min_r by lia. rewrite Z.sub_diag, take_0.
    by rewrite drop_ge by lia.
Qed.

Lemma slice_to l b : 0 ≤ b → slice l None (Some b) = take (Z.to_nat b) l.
Proof.
  intros Hb. unfold slice. simpl.
  rewrite !adjust_index_nonneg by lia. rewrite (Z.min_l 0) by lia.
  rewrite Z.sub_0_r, drop_0.
  destruct (decide (b ≤ Z.of_nat (length l))) as [Hbl|Hbl].
  - by rewrite Z.min_l by lia.
  - rewrite Z.min_r by lia. rewrite Nat2Z.id. by rewrite !take_ge by lia.
Qed.

(** Omitting a bound is the same as giving the end it stands for. *)
Lemma slice_from_len l a :
  slice l (Some a) None = slice l (Some a) (Some (shape0 l)).
Proof. done. Qed.

Lemma slice_to_zero l b : slice l None (Some b) = slice l (Some 0) (Some b).
Proof. done. Qed.

Lemma slice_nil a b : slice (@nil A) a b = [].
Proof. unfold slice. by rewrite drop_nil, take_nil. Qed.

Lemma slice_sublist l a b : slice l a b `sublist_of` l.
Proof.
  unfold slice. etrans; [apply sublist_take|apply sublist_drop].
Qed.
End SliceFacts.

(** ** Rotations *)

Section Rotate.
Context {A : Type}.
Implicit Types (l : list A).

Lemma rotate_mod l a b :
  (a `mod` length l = b `mod` length l)%nat → rotate a l = rotate b l.
Proof. intros E. unfold rotate. by rewrite E. Qed.

Lemma rotate_small l a :
  (a ≤ length l)%nat → rotate a l = drop a l ++ take a l.
Proof.
  intros Ha. unfold rotate.
  destruct (decide (a = length l)) as [->|Hne].
  - destruct l as [|x l]; [done|].
    rewrite Nat.Div0.mod_same, drop_all, firstn_all.
    by rewrite drop_0, take_0, app_nil_r.
  - by rewrite Nat.mod_small by lia.
Qed.

Lemma rotate_perm l a : rotate a l ≡ₚ l.
Proof.
  unfold rotate. rewrite (comm (++)). by rewrite take_drop.
Qed.

Lemma rotate_rotate l a b : rotate a (rotate b l) = rotate (b + a) l.
Proof.
  apply list_eq. intros i.
  destruct (decide (i < length l)%nat) as [Hi|Hi].
  - rewrite (lookup_rotate_r (rotate b l)) by (by rewrite length_rotate).
    rewrite length_rotate.
    rewrite !lookup_rotate_r by (done || apply rotate_nat_add_lt; lia).
    replace (rotate_nat_add b (rotate_nat_add a i (length l)) (length l))
      with (rotate_nat_add (b + a) i (length l)); [done|].
    unfold rotate_nat_add.
    rewrite Z2Nat.id by (apply Z.mod_pos; lia).
    rewrite Zplus_mod_idemp_r. do 2 f_equal. lia.
  - rewrite !lookup_ge_None_2; [done|rewrite ?length_rotate; lia..].
Qed.
End Rotate.

(** ** One array, one call *)

Section AdvanceFacts.
Context {A : Type}.
Implicit Types (l : list A).

Lemma advance_fits B l s :
  s + B ≤ shape0 l →
  advance B l s = (slice l (Some s) (Some (s + B)), s + B).
Proof. intros. unfold advance. by rewrite bool_decide_true by lia. Qed.

Lemma advance_wraps B l s :
  shape0 l < s + B →
  advance B l s =
    (slice l (Some s) None ++ slice l None (Some (s + B - shape0 l)),
     s + B - shape0 l).
Proof. intros. unfold advance. by rewrite bool_decide_false by lia. Qed.

Lemma advance_cursor B l s :
  (advance B l s).2 = s + B ∨ (advance B l s).2 = s + B - shape0 l.
Proof. unfold advance. case_bool_decide; simpl; auto. Qed.

Lemma advance_cursor_range B l s :
  1 ≤ B ≤ shape0 l → 0 ≤ s ≤ shape0 l → 0 < (advance B l s).2 ≤ shape0 l.
Proof. intros. unfold advance. case_bool_decide; simpl; lia. Qed.

(** Inside the precondition a batch is a window of the rotated array. *)
Lemma advance_batch_rotate B l s :
  1 ≤ B ≤ shape0 l → 0 ≤ s ≤ shape0 l →
  (advance B l s).1 = take (Z.to_nat B) (rotate (Z.to_nat s) l).
Proof.
  unfold shape0. intros HB Hs.
  rewrite rotate_small by lia.
  destruct (decide (s + B ≤ shape0 l)) as [Hfit|Hwrap]; unfold shape0 in *.
  - rewrite advance_fits by done. simpl.
    rewrite slice_between by lia.
    rewrite take_app_le by (rewrite length_drop; lia).
    f_equal. lia.
  - rewrite advance_wraps by (unfold shape0; lia). simpl.
    rewrite slice_from, slice_to by (unfold shape0; lia).
    rewrite take_app, length_drop, take_take.
    rewrite (take_ge (drop _ _)) by (rewrite length_drop; lia).
    do 2 f_equal. unfold shape0. lia.
Qed.

Lemma advance_batch_length B l s :
  1 ≤ B ≤ shape0 l → 0 ≤ s ≤ shape0 l →
  Z.of_nat (length (advance B l s).1) = B.
Proof.
  intros HB Hs. rewrite advance_batch_rotate by done.
  rewrite length_take, length_rotate. unfold shape0 in *. lia.
Qed.

(** The cursor moves by [B] around a circle of [shape0 l] places. *)
Lemma advance_rotate B l s :
  0 ≤ B → 0 ≤ s → 0 ≤ (advance B l s).2 →
  rotate (Z.to_nat (advance B l s).2) l
  = rotate (Z.to_nat B) (rotate (Z.to_nat s) l).
Proof.
  intros HB Hs Hs'. rewrite rotate_rotate. apply rotate_mod.
  destruct (advance_cursor B l s) as [E|E]; rewrite E in *.
  - f_equal. lia.
  - destruct l as [|x l'].
    { unfold shape0 in *. simpl in *. lia. }
    replace (Z.to_nat s + Z.to_nat B)%nat
      with (Z.to_nat (s + B - shape0 (x :: l')) + 1 * length (x :: l'))%nat
      by (unfold shape0 in *; lia).
    by rewrite Nat.Div0.mod_add.
Qed.
End AdvanceFacts.

(** ** One array, call after call *)

Section TraceFacts.
Context {A : Type}.
Implicit Types (l : list A).

Lemma cursor_at_S B l k : ∀ s,
  cursor_at B l s (S k) = (advance B l (cursor_at B l s k)).2.
Proof. induction k as [|k IH]; intros s; [done|]. simpl in *. by rewrite IH. Qed.

Lemma cursor_at_range B l k : ∀ s,
  1 ≤ B ≤ shape0 l → 0 ≤ s ≤ shape0 l →
  0 ≤ cursor_at B l s k ≤ shape0 l.
Proof.
  induction k as [|k IH]; intros s HB Hs; simpl; [done|].
  apply IH; [done|]. pose proof (advance_cursor_range B l s HB Hs). lia.
Qed.

Lemma cursor_at_pos B l k s :
  1 ≤ B ≤ shape0 l → 0 ≤ s ≤ shape0 l → (0 < k)%nat →
  0 < cursor_at B l s k.
Proof.
  intros HB Hs Hk. destruct k as [|k]; [lia|].
  rewrite cursor_at_S.
  apply advance_cursor_range; [done|]. by apply cursor_at_range.
Qed.

Lemma cursor_at_mod B l k : ∀ s,
  cursor_at B l s k `mod` shape0 l = (s + Z.of_nat k * B) `mod` shape0 l.
Proof.
  induction k as [|k IH]; intros s; simpl cursor_at.
  - f_equal. lia.
  - rewrite IH. destruct (advance_cursor B l s) as [->| ->].
    + f_equal. lia.
    + rewrite <- (Z_mod_plus_full (s + B - shape0 l + Z.of_nat k * B) 1).
      f_equal. lia.
Qed.

Lemma batch_at_length B l s k :
  1 ≤ B ≤ shape0 l → 0 ≤ s ≤ shape0 l →
  Z.of_nat (length (batch_at B l s k)) = B.
Proof.
  intros HB Hs. unfold batch_at.
  apply advance_batch_length; [done|]. by apply cursor_at_range.
Qed.

Lemma batches_S B l s n :
  batch_at B l s <$> seq 0 (S n)
  = (advance B l s).1 :: (batch_at B l (advance B l s).2 <$> seq 0 n).
Proof.
  simpl. f_equal. rewrite <- fmap_S_seq, <- list_fmap_compose. done.
Qed.

(** A generator over one array is that array's own trace. *)
Lemma pulls_single B l k : ∀ s,
  pulls k (Gen [l] B [s])
  = Some ((λ j, [batch_at B l s j]) <$> seq 0 k,
          Gen [l] B [cursor_at B l s k]).
Proof.
  induction k as [|k IH]; intros s; [done|].
  simpl pulls. rewrite next_advance by done. simpl.
  rewrite IH. simpl. do 3 f_equal.
  by rewrite <- fmap_S_seq, <- list_fmap_compose.
Qed.

Lemma rows_single (f : nat → list A) js :
  rows ((λ j, [f j]) <$> js) = concat (f <$> js).
Proof.
  unfold rows. induction js as [|j js IH]; [done|].
  csimpl. by rewrite IH.
Qed.

Lemma column_single (f : nat → list A) js :
  column 0 ((λ j, [f j]) <$> js) = f <$> js.
Proof.
  unfold column. induction js as [|j js IH]; [done|].
  csimpl. by rewrite IH.
Qed.

(** The rows of the first [n] batches contain every window of the
    rotated array that is no longer than they are. *)
Lemma window_covered B l n : ∀ s m,
  1 ≤ B ≤ shape0 l → 0 ≤ s ≤ shape0 l →
  (m ≤ n * Z.to_nat B)%nat → (m ≤ length l)%nat →
  take m (rotate (Z.to_nat s) l) ⊆+ concat (batch_at B l s <$> seq 0 n).
Proof.
  induction n as [|n IH]; intros s m HB Hs Hm HmL.
  - replace m with 0%nat by lia. apply submseteq_nil_l.
  - rewrite batches_S. simpl concat.
    rewrite advance_batch_rotate by done.
    set (R := rotate (Z.to_nat s) l).
    destruct (decide (m ≤ Z.to_nat B)%nat) as [Hle|Hgt].
    + apply submseteq_inserts_r, sublist_submseteq.
      replace m with (m `min` Z.to_nat B)%nat by lia.
      rewrite <- take_take. apply sublist_take.
    + replace m with (Z.to_nat B + (m - Z.to_nat B))%nat by lia.
      rewrite <- take_take_drop. apply submseteq_app; [done|].
      pose proof (advance_cursor_range B l s HB Hs) as Hs'.
      assert (length R = length l) as HR by apply length_rotate.
      assert (take (m - Z.to_nat B) (drop (Z.to_nat B) R)
              = take (m - Z.to_nat B) (rotate (Z.to_nat (advance B l s).2) l))
        as ->.
      { rewrite advance_rotate by lia. fold R.
        rewrite rotate_small by (unfold shape0 in *; lia).
        rewrite take_app_le; [done|]. rewrite length_drop. lia. }
      apply IH; [done|lia|lia|lia].
Qed.

Lemma cycle_covered B l s n :
  1 ≤ B ≤ shape0 l → 0 ≤ s ≤ shape0 l →
  (length l ≤ n * Z.to_nat B)%nat →
  l ⊆+ concat (batch_at B l s <$> seq 0 n).
Proof.
  intros HB Hs Hn.
  rewrite <- (rotate_perm l (Z.to_nat s)) at 1.
  rewrite <- (take_ge (rotate (Z.to_nat s) l) (length l))
    by (by rewrite length_rotate).
  by apply window_covered.
Qed.

Lemma ceil_div_enough L B : 1 ≤ B → L ≤ ceil_div L B * B.
Proof.
  intros HB. unfold ceil_div.
  pose proof (Z.mul_div_le (L + B - 1) B ltac:(lia)).
  pose proof (Z.mod_pos_bound (L + B - 1) B ltac:(lia)).
  pose proof (Z.div_mod (L + B - 1) B ltac:(lia)). nia.
Qed.
End TraceFacts.

(** ** A freshly built generator, call after call *)

Section Runs.
Context {A : Type}.
Implicit Types (l : list A) (arrs : list (list A)).

Lemma generator_wf arrs B : wf (generator arrs B).
Proof. unfold wf. simpl. apply length_replicate. Qed.

Lemma generator_start arrs B i l :
  arrs !! i = Some l → starts (generator arrs B) !! i = Some 0.
Proof.
  intros Hl. simpl. apply lookup_replicate_2. by eapply lookup_lt_Some.
Qed.

Lemma column_pointwise i (f : nat → list A) yields :
  (∀ j, (j < length yields)%nat →
     ∃ batches, yields !! j = Some batches ∧ batches !! i = Some (f j)) →
  column i yields = f <$> seq 0 (length yields).
Proof.
  revert f. induction yields as [|batches yields IH]; intros f Hf; [done|].
  unfold column in *. csimpl.
  destruct (Hf 0%nat) as (? & [= <-] & ->); [simpl; lia|]. csimpl.
  f_equal. rewrite <- fmap_S_seq, <- list_fmap_compose.
  apply IH. intros j Hj. apply (Hf (S j)). simpl. lia.
Qed.

Lemma pulls_generator arrs B k :
  ∃ yields g',
    pulls k (generator arrs B) = Some (yields, g') ∧
    arrays g' = arrs ∧ batch_size g' = B ∧
    length (starts g') = length arrs ∧
    length yields = k ∧
    Forall (λ batches, length batches = length arrs) yields ∧
    ∀ i l, arrs !! i = Some l →
      starts g' !! i = Some (cursor_at B l 0 k) ∧
      column i yields = batch_at B l 0 <$> seq 0 k ∧
      ∀ j, (j < k)%nat →
        ∃ batches, yields !! j = Some batches ∧
          batches !! i = Some (batch_at B l 0 j).
Proof.
  destruct (pulls_spec k (generator arrs B) (generator_wf arrs B))
    as (yields & g' & Hrun & Hwf & Ha & Hb & Hlen & Hall & Hslot).
  exists yields, g'. simpl in *.
  split; [done|]. split; [done|]. split; [done|].
  split; [unfold wf in Hwf; by rewrite Hwf, Ha|].
  split; [done|]. split; [done|].
  intros i l Hl.
  destruct (Hslot i l 0 Hl) as [Hcur Hbat].
  { by apply (generator_start arrs B i l). }
  split; [done|]. split; [|done].
  rewrite <- Hlen. apply column_pointwise.
  intros j Hj. apply Hbat. lia.
Qed.

(** Inside the precondition every batch of every call has [B] rows. *)
Lemma pulls_generator_rows arrs B k yields g' :
  1 ≤ B → Forall (λ l, B ≤ shape0 l) arrs →
  pulls k (generator arrs B) = Some (yields, g') →
  Forall (Forall (λ batch, Z.of_nat (length batch) = B)) yields.
Proof.
  intros HB HL Hrun.
  destruct (pulls_generator arrs B k)
    as (yields' & g'' & Hrun' & _ & _ & _ & Hlen & Hall & Hslot).
  rewrite Hrun in Hrun'. injection Hrun' as <- <-.
  apply Forall_lookup. intros j batches Hj.
  pose proof (Forall_lookup_1 _ _ _ _ Hall Hj) as Hn.
  apply Forall_lookup. intros i batch Hi.
  destruct (lookup_lt_is_Some_2 arrs i) as [l Hl].
  { rewrite <- Hn. by eapply lookup_lt_Some. }
  destruct (Hslot i l Hl) as (_ & _ & Hbat).
  destruct (Hbat j) as (batches' & Hj' & Hi').
  { rewrite <- Hlen. by eapply lookup_lt_Some. }
  rewrite Hj in Hj'. injection Hj' as <-.
  rewrite Hi in Hi'. injection Hi' as ->.
  apply batch_at_length; [|unfold shape0; lia].
  pose proof (Forall_lookup_1 _ _ _ _ HL Hl). simpl in *. lia.
Qed.
End Runs.

(** ** Outside the precondition *)

Section Degenerate.
Context {A : Type}.
Implicit Types (l : list A).

Lemma advance_nil B s : advance B (@nil A) s = ([], s + B).
Proof.
  unfold advance, concatenate, shape0. simpl.
  case_bool_decide; rewrite !slice_nil; f_equal; lia.
Qed.

Lemma cursor_at_nil B k : ∀ s, cursor_at B (@nil A) s k = s + Z.of_nat k * B.
Proof.
  induction k as [|k IH]; intros s; simpl cursor_at; [lia|].
  rewrite advance_nil, IH. simpl. lia.
Qed.

Lemma batch_at_nil B s k : batch_at B (@nil A) s k = [].
Proof. unfold batch_at. by rewrite advance_nil. Qed.

(** A full-length batch: the first call slices, the later ones wrap. *)
Lemma advance_full_first l : advance (shape0 l) l 0 = (l, shape0 l).
Proof.
  rewrite advance_fits by lia.
  rewrite slice_between by (unfold shape0; lia).
  unfold shape0. rewrite drop_0, take_ge by lia. done.
Qed.

Lemma advance_full_later l : advance (shape0 l) l (shape0 l) = (l, shape0 l).
Proof.
  destruct l as [|x l']; [by rewrite advance_nil|].
  set (l := x :: l').
  assert (0 < shape0 l) by (unfold shape0; simpl; lia).
  rewrite advance_wraps by lia.
  rewrite slice_from, slice_to by lia.
  unfold shape0. rewrite Nat2Z.id, drop_all.
  rewrite take_ge by lia. simpl. f_equal. lia.
Qed.

Lemma cursor_at_full l k :
  cursor_at (shape0 l) l 0 k = if decide (k = 0)%nat then 0 else shape0 l.
Proof.
  induction k as [|k IH]; [done|].
  rewrite cursor_at_S, IH. case_decide; subst.
  - by rewrite advance_full_first.
  - by rewrite advance_full_later.
Qed.

Lemma batch_at_full l k : batch_at (shape0 l) l 0 k = l.
Proof.
  unfold batch_at. rewrite cursor_at_full. case_decide.
  - by rewrite advance_full_first.
  - by rewrite advance_full_later.
Qed.

(** A batch size above the length: the cursor creeps by the excess. *)
Lemma cursor_at_oversized B l k :
  shape0 l < B → cursor_at B l 0 k = Z.of_nat k * (B - shape0 l).
Proof.
  intros HB. induction k as [|k IH]; [done|].
  rewrite cursor_at_S, IH. rewrite advance_wraps by nia. simpl. lia.
Qed.

Lemma fmap_const_replicate {X Y} (f : X → Y) y xs :
  (∀ x, f x = y) → f <$> xs = replicate (length xs) y.
Proof.
  intros Hf. induction xs as [|x xs IH]; [done|].
  csimpl. by rewrite Hf, IH.
Qed.
End Degenerate.

(** ** The relation is single-valued and is what the functions compute *)

Section Relation.
Context {A : Type}.
Implicit Types (g h : gen A) (todo : list (list A)).






End Relation.

(** * The properties *)

Section Properties.
Context {A : Type}.
Implicit Types (l : list A) (arrs : list (list A)).

(** C1: with a batch size [B >= 1] and a cursor [start >= 0], one call
    on an array of [L] rows yields [array[start:start+B]] and moves the
    cursor to [start+B] when [start+B <= L]; that batch has [B] rows, its
    row [j] is row [start+j] of the array, so no row is repeated.
    Otherwise it yields [array[start:L]] followed by [array[0:diff]] with
    [diff = start+B-L] and the cursor becomes [diff].  With [L = 10],
    [B = 4], [start = 8] the batch is rows 8, 9, 0, 1 and the cursor 2. *)
Theorem generator_step_slice_or_wrap l B start :
  1 ≤ B → 0 ≤ start →
  (start + B ≤ shape0 l →
     let batch := slice l (Some start) (Some (start + B)) in
     next (Gen [l] B [start]) = Some ([batch], Gen [l] B [start + B]) ∧
     Z.of_nat (length batch) = B ∧
     (∀ j, (j < Z.to_nat B)%nat → batch !! j = l !! (Z.to_nat start + j)%nat) ∧
     (NoDup l → NoDup batch)) ∧
  (shape0 l < start + B →
     let diff := start + B - shape0 l in
     next (Gen [l] B [start])
     = Some ([slice l (Some start) (Some (shape0 l))
              ++ slice l (Some 0) (Some diff)],
             Gen [l] B [diff])) ∧
  (∀ r0 r1 r2 r3 r4 r5 r6 r7 r8 r9 : A,
     next (Gen [[r0; r1; r2; r3; r4; r5; r6; r7; r8; r9]] 4 [8])
     = Some ([[r8; r9; r0; r1]],
             Gen [[r0; r1; r2; r3; r4; r5; r6; r7; r8; r9]] 4 [2])).
Proof.
  intros HB Hs. split; [|split].
  - intros Hfit batch. rewrite next_advance by done. simpl.
    rewrite advance_fits by done. split; [done|].
    subst batch. rewrite slice_between by lia.
    unfold shape0 in Hfit. split; [|split].
    + rewrite length_take, length_drop. lia.
    + intros j Hj. rewrite lookup_take_lt by lia. apply lookup_drop.
    + intros Hnd. eapply sublist_NoDup; [exact Hnd|].
      etrans; [apply sublist_take|apply sublist_drop].
  - intros Hwrap diff. rewrite next_advance by done. simpl.
    by rewrite advance_wraps by done.
  - intros. reflexivity.
Qed.

(** C2 (as amended): for a generator built over arrays of lengths [L_i]
    with [1 <= B <= L_i], after every number of calls each cursor
    satisfies [0 <= start <= L_i]; it may rest on [L_i] itself. *)
Theorem generator_cursor_within arrs B k :
  Forall (λ l, 1 ≤ B ≤ shape0 l) arrs →
  ∃ yields g',
    pulls k (generator arrs B) = Some (yields, g') ∧
    Forall2 (λ l start, 0 ≤ start ≤ shape0 l) arrs (starts g').
Proof.
  intros HB.
  destruct (pulls_generator arrs B k)
    as (yields & g' & Hrun & _ & _ & Hlen & _ & _ & Hslot).
  exists yields, g'. split; [done|].
  apply Forall2_same_length_lookup. split; [done|].
  intros i l start Hl Hstart.
  destruct (Hslot i l Hl) as [Hcur _].
  rewrite Hcur in Hstart. injection Hstart as <-.
  apply cursor_at_range; [|unfold shape0; lia].
  by apply (Forall_lookup_1 _ _ _ _ HB Hl).
Qed.

(** C3: for a generator built with [B >= 1] over arrays that each have
    at least [B] rows, every batch of every call has exactly [B] rows. *)
Theorem generator_batches_have_B_rows arrs B k :
  1 ≤ B → Forall (λ l, B ≤ shape0 l) arrs →
  ∃ yields g',
    pulls k (generator arrs B) = Some (yields, g') ∧
    length yields = k ∧
    Forall (λ batches, length batches = length arrs) yields ∧
    Forall (Forall (λ batch, Z.of_nat (length batch) = B)) yields.
Proof.
  intros HB HL.
  destruct (pulls_generator arrs B k)
    as (yields & g' & Hrun & _ & _ & _ & Hlen & Hall & _).
  exists yields, g'. split; [done|]. split; [done|]. split; [done|].
  by eapply pulls_generator_rows.
Qed.

(** C4: for one array of [L] rows and [1 <= B <= L], from any cursor
    [0 <= initial_start < L]: after [ceil(L/B)] calls the rows produced
    contain the array as a sub-multiset, so each row has appeared, and
    the cursor is congruent to [initial_start + ceil(L/B)*B] modulo [L]. *)
Theorem generator_full_cycle_covers l B initial_start :
  1 ≤ B ≤ shape0 l → 0 ≤ initial_start < shape0 l →
  ∃ yields start,
    pulls (Z.to_nat (ceil_div (shape0 l) B)) (Gen [l] B [initial_start])
    = Some (yields, Gen [l] B [start]) ∧
    l ⊆+ rows yields ∧
    (∀ x, x ∈ l → x ∈ rows yields) ∧
    start `mod` shape0 l
    = (initial_start + ceil_div (shape0 l) B * B) `mod` shape0 l.
Proof.
  intros HB Hs.
  pose proof (ceil_div_enough (shape0 l) B ltac:(lia)) as Hceil.
  assert (0 ≤ ceil_div (shape0 l) B) as Hpos.
  { unfold ceil_div. apply Z.div_pos; lia. }
  eexists _, _. split; [apply pulls_single|].
  assert (l ⊆+ rows ((λ j, [batch_at B l initial_start j])
                      <$> seq 0 (Z.to_nat (ceil_div (shape0 l) B)))) as Hcov.
  { rewrite rows_single. apply cycle_covered; [done|lia|].
    rewrite <- Z2Nat.inj_mul by lia. unfold shape0 in *. lia. }
  split; [done|]. split.
  - intros x Hx. by eapply elem_of_submseteq.
  - rewrite cursor_at_mod. by rewrite Z2Nat.id by done.
Qed.

(** C5 (as amended): with [B = L] and the cursor at 0, every call yields
    the whole array as one batch; the first call is the plain slice
    [array[0:L]] ([diff = 0]) and moves the cursor from 0 to [L]; every
    later call (for [L >= 1]) has [diff = L], joins the empty tail
    [array[L:]] to the full prefix [array[:L]], and leaves the cursor on
    [L]. *)
Theorem generator_full_length_batch l k :
  ∃ yields g',
    pulls k (generator [l] (shape0 l)) = Some (yields, g') ∧
    yields = replicate k [l] ∧
    starts g' = [if decide (k = 0)%nat then 0 else shape0 l] ∧
    next (generator [l] (shape0 l))
    = Some ([slice l (Some 0) (Some (shape0 l))],
            Gen [l] (shape0 l) [shape0 l]) ∧
    slice l (Some 0) (Some (shape0 l)) = l ∧
    (1 ≤ shape0 l →
       next (Gen [l] (shape0 l) [shape0 l])
       = Some ([concatenate (slice l (Some (shape0 l)) None)
                            (slice l None (Some (shape0 l)))],
               Gen [l] (shape0 l) [shape0 l])) ∧
    slice l (Some (shape0 l)) None = [] ∧
    slice l None (Some (shape0 l)) = l.
Proof.
  eexists _, _. split; [apply pulls_single|].
  split; [|split; [|split; [|split; [|split; [|split]]]]].
  - rewrite (fmap_const_replicate _ [l]); [by rewrite length_seq|].
    intros j. by rewrite batch_at_full.
  - simpl. by rewrite cursor_at_full.
  - unfold generator. simpl replicate.
    rewrite next_advance by done. simpl.
    rewrite advance_fits by lia. done.
  - rewrite slice_between by (unfold shape0; lia).
    unfold shape0. rewrite drop_0. apply take_ge. lia.
  - intros HL. rewrite next_advance by done. simpl.
    rewrite advance_wraps by lia. simpl.
    by replace (shape0 l + shape0 l - shape0 l) with (shape0 l) by lia.
  - rewrite slice_from by (unfold shape0; lia).
    unfold shape0. by rewrite Nat2Z.id, drop_all.
  - rewrite slice_to by (unfold shape0; lia).
    unfold shape0. apply take_ge. lia.
Qed.

(** C6 (as amended): for an array of [L >= 1] rows, [L < B <= 2*L] and
    the cursor at 0: on the first call, and on any later call [j]
    (counted from 0) as long as [(j+1)*(B-L) <= L], the wrap branch runs
    with [diff = (j+1)*(B-L) <= L] and the tail-then-prefix batch has
    exactly [B] rows with some row occurring twice; the cursor after
    that call is [diff]. *)
Theorem generator_oversized_batch l B j :
  1 ≤ shape0 l → shape0 l < B ≤ 2 * shape0 l →
  (Z.of_nat j + 1) * (B - shape0 l) ≤ shape0 l →
  let start := Z.of_nat j * (B - shape0 l) in
  let diff := (Z.of_nat j + 1) * (B - shape0 l) in
  ∃ yields g' batch,
    pulls (S j) (generator [l] B) = Some (yields, g') ∧
    starts g' = [diff] ∧
    yields !! j = Some [batch] ∧
    batch = slice l (Some start) None ++ slice l None (Some diff) ∧
    Z.of_nat (length batch) = B ∧
    ¬ NoDup batch.
Proof.
  intros HL HB Hj start diff.
  assert (0 ≤ start < shape0 l) as Hstart by (subst start; nia).
  assert (diff = start + B - shape0 l) as Hdiff by (subst start diff; lia).
  assert (batch_at B l 0 j
          = drop (Z.to_nat start) l ++ take (Z.to_nat diff) l) as Hbatch.
  { unfold batch_at. rewrite cursor_at_oversized by lia. fold start.
    rewrite advance_wraps by lia. simpl. rewrite <- Hdiff.
    by rewrite slice_from, slice_to by lia. }
  eexists _, _, (batch_at B l 0 j). split; [apply pulls_single|].
  split; [|split; [|split; [|split]]].
  - change (starts _) with [cursor_at B l 0 (S j)].
    rewrite cursor_at_oversized by lia.
    f_equal. subst diff. lia.
  - rewrite list_lookup_fmap, lookup_seq_lt by lia. done.
  - rewrite Hbatch. by rewrite slice_from, slice_to by lia.
  - rewrite Hbatch, length_app, length_drop, length_take.
    unfold shape0 in *. lia.
  - rewrite Hbatch. intros Hnd. apply NoDup_app in Hnd as (_ & Hdisj & _).
    destruct (lookup_lt_is_Some_2 l (Z.to_nat start)) as [x Hx].
    { unfold shape0 in *. lia. }
    apply (Hdisj x).
    + apply list_elem_of_lookup. exists 0%nat.
      rewrite lookup_drop. by rewrite Nat.add_0_r.
    + apply list_elem_of_lookup. exists (Z.to_nat start).
      rewrite lookup_take_lt by lia. done.
Qed.

(** C7 (as amended): for any arrays cycled together with one batch size
    [B], each call yields one batch per array, and the batches and cursor
    of array [i] over [k] calls are those of a generator cycling that
    array alone with the same [B]: nothing of the other arrays enters.
    The batches all have [B] rows where [1 <= B] and no array is shorter
    than [B]. *)
Theorem generator_arrays_independent arrs B k :
  ∃ yields g',
    pulls k (generator arrs B) = Some (yields, g') ∧
    length yields = k ∧
    Forall (λ batches, length batches = length arrs) yields ∧
    (∀ i l, arrs !! i = Some l →
      ∃ yields1 start,
        pulls k (generator [l] B) = Some (yields1, Gen [l] B [start]) ∧
        starts g' !! i = Some start ∧
        column i yields = column 0 yields1 ∧
        length (column i yields) = k) ∧
    (1 ≤ B → Forall (λ l, B ≤ shape0 l) arrs →
      Forall (Forall (λ batch, Z.of_nat (length batch) = B)) yields).
Proof.
  destruct (pulls_generator arrs B k)
    as (yields & g' & Hrun & _ & _ & _ & Hlen & Hall & Hslot).
  exists yields, g'. split; [done|]. split; [done|]. split; [done|].
  split.
  - intros i l Hl. destruct (Hslot i l Hl) as (Hcur & Hcol & _).
    eexists _, _. split; [apply pulls_single|].
    split; [done|]. rewrite column_single. split; [done|].
    by rewrite Hcol, length_fmap, length_seq.
  - intros HB HL. by eapply pulls_generator_rows.
Qed.

(** C8: a generator built with [B <= 0], or over an array with no rows,
    is built and runs without any error being raised, and no batch it
    yields for that batch size or that array is a batch of exactly
    [B >= 1] rows. *)
Theorem generator_misconfigured arrs B k i l :
  arrs !! i = Some l → B ≤ 0 ∨ shape0 l = 0 →
  ∃ yields g',
    pulls k (generator arrs B) = Some (yields, g') ∧
    length (column i yields) = k ∧
    Forall (λ batch, ¬ (1 ≤ B ∧ Z.of_nat (length batch) = B))
           (column i yields).
Proof.
  intros Hl Hbad.
  destruct (pulls_generator arrs B k)
    as (yields & g' & Hrun & _ & _ & _ & Hlen & Hall & Hslot).
  exists yields, g'. split; [done|].
  destruct (Hslot i l Hl) as (_ & -> & _).
  split; [by rewrite length_fmap, length_seq|].
  apply Forall_fmap, Forall_forall. intros j _ [HB Hrows]. simpl in Hrows.
  destruct Hbad as [Hneg|Hempty]; [lia|].
  assert (l = []) as -> by (apply nil_length_inv; unfold shape0 in *; lia).
  rewrite batch_at_nil in Hrows. simpl in Hrows. lia.
Qed.


(** C10: for a generator built over an array with no rows and [B >= 1]:
    no call raises, every batch for that array has no rows, and its
    cursor after [k] calls is [k*B]. *)
Theorem generator_empty_array arrs B k i l :
  arrs !! i = Some l → shape0 l = 0 → 1 ≤ B →
  ∃ yields g',
    pulls k (generator arrs B) = Some (yields, g') ∧
    column i yields = replicate k [] ∧
    starts g' !! i = Some (Z.of_nat k * B).
Proof.
  intros Hl Hempty HB.
  assert (l = []) as -> by (apply nil_length_inv; unfold shape0 in *; lia).
  destruct (pulls_generator arrs B k)
    as (yields & g' & Hrun & _ & _ & _ & Hlen & Hall & Hslot).
  exists yields, g'. split; [done|].
  destruct (Hslot i [] Hl) as (-> & -> & _). split.
  - rewrite (fmap_const_replicate _ []); [by rewrite length_seq|].
    intros j. apply batch_at_nil.
  - by rewrite cursor_at_nil.
Qed.
End Properties.

(** * The definitions at work *)

Example slice_inside : slice [0; 1; 2; 3; 4]%nat (Some 1) (Some 3) = [1; 2]%nat.
Proof. reflexivity. Qed.

Example slice_past_the_end : slice [0; 1; 2; 3; 4]%nat (Some 3) (Some 9) = [3; 4]%nat.
Proof. reflexivity. Qed.

Example slice_from_the_end : slice [0; 1; 2; 3; 4]%nat (Some (-2)) None = [3; 4]%nat.
Proof. reflexivity. Qed.

Example slice_to_negative : slice [0; 1; 2]%nat (Some 0) (Some (-1)) = [0; 1]%nat.
Proof. reflexivity. Qed.

Example slice_crossed : slice [0; 1; 2]%nat (Some (-1)) (Some (-2)) = [].
Proof. reflexivity. Qed.

(** Two arrays of 10 and 7 rows with [B = 4]: the cursors go
    0, 4, 8, 2 and 0, 4, 1, 5. *)
Example two_arrays_wrap_apart :
  pulls 3 (generator [[0; 1; 2; 3; 4; 5; 6; 7; 8; 9]; [0; 1; 2; 3; 4; 5; 6]]%nat 4)
  = Some ([ [[0; 1; 2; 3]; [0; 1; 2; 3]];
            [[4; 5; 6; 7]; [4; 5; 6; 0]];
            [[8; 9; 0; 1]; [1; 2; 3; 4]] ]%nat,
          Gen [[0; 1; 2; 3; 4; 5; 6; 7; 8; 9]; [0; 1; 2; 3; 4; 5; 6]]%nat 4 [2; 5]).
Proof. reflexivity. Qed.

(** A negative batch size: the first slice counts its stop from the end,
    the cursor goes below zero and the later slices are empty. *)
Example negative_batch_size :
  pulls 3 (generator [[0; 1; 2]%nat] (-1))
  = Some ([ [[0; 1]%nat]; [[]]; [[]] ], Gen [[0; 1; 2]%nat] (-1) [-3]).
Proof. reflexivity. Qed.

(** * Instances *)

Lemma generator_step_slice_or_wrap_witness :
  1 ≤ 2 ∧ 0 ≤ 1 ∧
  next (Gen [[10; 20; 30; 40; 50]%nat] 2 [1])
  = Some ([[20; 30]%nat], Gen [[10; 20; 30; 40; 50]%nat] 2 [3]).
Proof.
  split; [lia|]. split; [lia|].
  destruct (generator_step_slice_or_wrap [10; 20; 30; 40; 50]%nat 2 1
              ltac:(lia) ltac:(lia)) as [Hfit _].
  destruct Hfit as [Hnext _]; [vm_compute; congruence|].
  exact Hnext.
Defined.

(** C2 as first stated asks for [start < L]: with 4 rows and [B = 2] the
    cursor rests on 4 after the second call. *)
Lemma generator_cursor_reaches_length :
  Forall (λ l, 1 ≤ 2 ≤ shape0 l) [[10; 20; 30; 40]%nat] ∧
  pulls 2 (generator [[10; 20; 30; 40]%nat] 2)
  = Some ([ [[10; 20]]; [[30; 40]] ]%nat, Gen [[10; 20; 30; 40]%nat] 2 [4]) ∧
  ¬ Forall2 (λ l start, 0 ≤ start < shape0 l) [[10; 20; 30; 40]%nat] [4].
Proof.
  split; [repeat constructor; vm_compute; congruence|].
  split; [reflexivity|].
  intros H. apply Forall2_cons_1 in H as [[_ H] _]. vm_compute in H. done.
Qed.

Lemma generator_cursor_within_witness :
  Forall (λ l, 1 ≤ 2 ≤ shape0 l) [[10; 20; 30; 40]; [1; 2; 3]]%nat ∧
  ∃ yields g',
    pulls 3 (generator [[10; 20; 30; 40]; [1; 2; 3]]%nat 2) = Some (yields, g') ∧
    Forall2 (λ l start, 0 ≤ start ≤ shape0 l)
            [[10; 20; 30; 40]; [1; 2; 3]]%nat (starts g').
Proof.
  assert (Forall (λ l, 1 ≤ 2 ≤ shape0 l) [[10; 20; 30; 40]; [1; 2; 3]]%nat) as H.
  { repeat constructor; vm_compute; congruence. }
  split; [exact H|].
  exact (generator_cursor_within [[10; 20; 30; 40]; [1; 2; 3]]%nat 2 3 H).
Defined.

Lemma generator_batches_have_B_rows_witness :
  1 ≤ 2 ∧ Forall (λ l, 2 ≤ shape0 l) [[10; 20; 30; 40]; [1; 2; 3]]%nat ∧
  ∃ yields g',
    pulls 3 (generator [[10; 20; 30; 40]; [1; 2; 3]]%nat 2) = Some (yields, g') ∧
    length yields = 3%nat ∧
    Forall (λ batches, length batches = 2%nat) yields ∧
    Forall (Forall (λ batch, Z.of_nat (length batch) = 2)) yields.
Proof.
  assert (Forall (λ l, 2 ≤ shape0 l) [[10; 20; 30; 40]; [1; 2; 3]]%nat) as H.
  { repeat constructor; vm_compute; congruence. }
  split; [lia|]. split; [exact H|].
  exact (generator_batches_have_B_rows
           [[10; 20; 30; 40]; [1; 2; 3]]%nat 2 3 ltac:(lia) H).
Defined.

Lemma generator_full_cycle_covers_witness :
  1 ≤ 2 ≤ shape0 [10; 20; 30]%nat ∧ 0 ≤ 1 < shape0 [10; 20; 30]%nat ∧
  ∃ yields start,
    pulls 2 (Gen [[10; 20; 30]%nat] 2 [1])
    = Some (yields, Gen [[10; 20; 30]%nat] 2 [start]) ∧
    [10; 20; 30]%nat ⊆+ rows yields ∧
    (∀ x, x ∈ [10; 20; 30]%nat → x ∈ rows yields) ∧
    start `mod` 3 = (1 + 2 * 2) `mod` 3.
Proof.
  assert (1 ≤ 2 ≤ shape0 [10; 20; 30]%nat) as HB by (vm_compute; split; congruence).
  assert (0 ≤ 1 < shape0 [10; 20; 30]%nat) as Hs by (vm_compute; split; congruence).
  split; [exact HB|]. split; [exact Hs|].
  exact (generator_full_cycle_covers [10; 20; 30]%nat 2 1 HB Hs).
Defined.

(** C5 as first stated keeps the cursor where it was: with 2 rows and
    [B = 2] the first call moves it from 0 to 2. *)
Lemma generator_full_length_moves_cursor :
  starts (generator [[10; 20]%nat] (shape0 [10; 20]%nat)) = [0] ∧
  next (generator [[10; 20]%nat] (shape0 [10; 20]%nat))
  = Some ([[10; 20]%nat], Gen [[10; 20]%nat] 2 [2]) ∧
  [2] ≠ [0].
Proof. split; [reflexivity|]. split; [reflexivity|]. discriminate. Qed.

Lemma generator_full_length_batch_witness :
  1 ≤ shape0 [10; 20]%nat ∧
  ∃ yields g',
    pulls 3 (generator [[10; 20]%nat] 2) = Some (yields, g') ∧
    yields = replicate 3 [[10; 20]%nat] ∧
    starts g' = [2] ∧
    next (Gen [[10; 20]%nat] 2 [2])
    = Some ([concatenate (slice [10; 20]%nat (Some 2) None)
                         (slice [10; 20]%nat None (Some 2))],
            Gen [[10; 20]%nat] 2 [2]).
Proof.
  assert (1 ≤ shape0 [10; 20]%nat) as H by (vm_compute; congruence).
  split; [exact H|].
  destruct (generator_full_length_batch [10; 20]%nat 3)
    as (yields & g' & Hrun & Hy & Hs & _ & _ & Hlater & _).
  exists yields, g'. split; [exact Hrun|]. split; [exact Hy|].
  split; [exact Hs|]. exact (Hlater H).
Defined.

(** C6 as first stated speaks of every call: with 1 row and [B = 2] the
    second call has [diff = 2 > 1] and yields 1 row. *)
Lemma generator_oversized_second_call :
  1 ≤ shape0 [10%nat] ∧ shape0 [10%nat] < 2 ≤ 2 * shape0 [10%nat] ∧
  pulls 2 (generator [[10%nat]] 2)
  = Some ([ [[10; 10]]; [[10]] ]%nat, Gen [[10%nat]] 2 [2]) ∧
  1 + 2 - shape0 [10%nat] = 2 ∧ ¬ (2 ≤ shape0 [10%nat]) ∧
  Z.of_nat (length [10%nat]) ≠ 2.
Proof.
  vm_compute. repeat split; congruence.
Qed.

Lemma generator_oversized_batch_witness :
  1 ≤ shape0 [10; 20; 30]%nat ∧
  shape0 [10; 20; 30]%nat < 4 ≤ 2 * shape0 [10; 20; 30]%nat ∧
  (Z.of_nat 1 + 1) * (4 - shape0 [10; 20; 30]%nat) ≤ shape0 [10; 20; 30]%nat ∧
  ∃ yields g' batch,
    pulls 2 (generator [[10; 20; 30]%nat] 4) = Some (yields, g') ∧
    starts g' = [2] ∧
    yields !! 1%nat = Some [batch] ∧
    batch = slice [10; 20; 30]%nat (Some 1) None
            ++ slice [10; 20; 30]%nat None (Some 2) ∧
    Z.of_nat (length batch) = 4 ∧
    ¬ NoDup batch.
Proof.
  assert (1 ≤ shape0 [10; 20; 30]%nat) as H1 by (vm_compute; congruence).
  assert (shape0 [10; 20; 30]%nat < 4 ≤ 2 * shape0 [10; 20; 30]%nat) as H2
    by (vm_compute; split; congruence).
  assert ((Z.of_nat 1 + 1) * (4 - shape0 [10; 20; 30]%nat)
          ≤ shape0 [10; 20; 30]%nat) as H3 by (vm_compute; congruence).
  split; [exact H1|]. split; [exact H2|]. split; [exact H3|].
  exact (generator_oversized_batch [10; 20; 30]%nat 4 1 H1 H2 H3).
Defined.

(** C7 as first stated gives every batch [B] rows: with 10 and 7 rows
    and [B = 8] the eighth call yields 8 rows for the first array and 7
    for the second. *)
Lemma generator_batches_differ_in_size :
  ('(yields, _) ← pulls 8 (generator [[0; 1; 2; 3; 4; 5; 6; 7; 8; 9];
                                      [0; 1; 2; 3; 4; 5; 6]]%nat 8);
   yields !! 7%nat)
  = Some [[6; 7; 8; 9; 0; 1; 2; 3]; [0; 1; 2; 3; 4; 5; 6]]%nat ∧
  Z.of_nat (length [6; 7; 8; 9; 0; 1; 2; 3]%nat) = 8 ∧
  Z.of_nat (length [0; 1; 2; 3; 4; 5; 6]%nat) ≠ 8.
Proof.
  split; [vm_compute; reflexivity|].
  split; [reflexivity|]. vm_compute. congruence.
Qed.

Lemma generator_arrays_independent_witness :
  [[10; 20; 30; 40]; [1; 2; 3]]%nat !! 1%nat = Some [1; 2; 3]%nat ∧
  1 ≤ 2 ∧ Forall (λ l, 2 ≤ shape0 l) [[10; 20; 30; 40]; [1; 2; 3]]%nat ∧
  ∃ yields g',
    pulls 3 (generator [[10; 20; 30; 40]; [1; 2; 3]]%nat 2) = Some (yields, g') ∧
    (∃ yields1 start,
      pulls 3 (generator [[1; 2; 3]%nat] 2)
      = Some (yields1, Gen [[1; 2; 3]%nat] 2 [start]) ∧
      starts g' !! 1%nat = Some start ∧
      column 1 yields = column 0 yields1 ∧
      length (column 1 yields) = 3%nat) ∧
    Forall (Forall (λ batch, Z.of_nat (length batch) = 2)) yields.
Proof.
  assert (Forall (λ l, 2 ≤ shape0 l) [[10; 20; 30; 40]; [1; 2; 3]]%nat) as H.
  { repeat constructor; vm_compute; congruence. }
  split; [reflexivity|]. split; [lia|]. split; [exact H|].
  destruct (generator_arrays_independent [[10; 20; 30; 40]; [1; 2; 3]]%nat 2 3)
    as (yields & g' & Hrun & _ & _ & Hslot & Hrows).
  exists yields, g'. split; [exact Hrun|]. split.
  - exact (Hslot 1%nat [1; 2; 3]%nat eq_refl).
  - exact (Hrows ltac:(lia) H).
Defined.

Lemma generator_misconfigured_witness :
  [[10; 20; 30]; []]%nat !! 1%nat = Some [] ∧
  (2 ≤ 0 ∨ shape0 (@nil nat) = 0) ∧
  ∃ yields g',
    pulls 3 (generator [[10; 20; 30]; []]%nat 2) = Some (yields, g') ∧
    length (column 1 yields) = 3%nat ∧
    Forall (λ batch, ¬ (1 ≤ 2 ∧ Z.of_nat (length batch) = 2)) (column 1 yields).
Proof.
  split; [reflexivity|]. split; [right; reflexivity|].
  exact (generator_misconfigured [[10; 20; 30]; []]%nat 2 3 1 []
           eq_refl (or_intror eq_refl)).
Defined.


Lemma generator_empty_array_witness :
  [[10; 20; 30]; []]%nat !! 1%nat = Some [] ∧ shape0 (@nil nat) = 0 ∧ 1 ≤ 2 ∧
  ∃ yields g',
    pulls 3 (generator [[10; 20; 30]; []]%nat 2) = Some (yields, g') ∧
    column 1 yields = replicate 3 [] ∧
    starts g' !! 1%nat = Some (Z.of_nat 3 * 2).
Proof.
  split; [reflexivity|]. split; [reflexivity|]. split; [lia|].
  exact (generator_empty_array [[10; 20; 30]; []]%nat 2 3 1 []
           eq_refl eq_refl ltac:(lia)).
Defined.

(** * Further properties of the generator *)

(** ** Batches are made of the array's own rows *)

Section Carried.
Context {A : Type}.
Implicit Types (l : list A) (arrs : list (list A)).

Lemma advance_sublist B l s : (advance B l s).1 `sublist_of` l ++ l.
Proof.
  unfold advance, concatenate. case_bool_decide; simpl.
  - apply sublist_inserts_r, slice_sublist.
  - apply sublist_app; apply slice_sublist.
Qed.

(** X1: whatever the arrays, the batch size and the number of calls, no
    call raises, the cursor list keeps one cursor per array, and every
    batch of array [i] is an in-order selection from two copies of that
    array end to end: its rows are rows of the array and there are at most
    twice as many. *)
Theorem generator_batches_from_array arrs B k :
  ∃ yields g',
    pulls k (generator arrs B) = Some (yields, g') ∧
    length (starts g') = length arrs ∧
    ∀ i l, arrs !! i = Some l →
      Forall (λ batch,
                batch `sublist_of` l ++ l ∧
                (∀ x, x ∈ batch → x ∈ l) ∧
                Z.of_nat (length batch) ≤ 2 * shape0 l)
             (column i yields).
Proof.
  destruct (pulls_generator arrs B k)
    as (yields & g' & Hrun & _ & _ & Hlen & _ & _ & Hslot).
  exists yields, g'. split; [done|]. split; [done|].
  intros i l Hl. destruct (Hslot i l Hl) as (_ & -> & _).
  apply Forall_fmap, Forall_forall. intros j _. simpl.
  pose proof (advance_sublist B l (cursor_at B l 0 j)) as Hsub.
  fold (batch_at B l 0 j) in Hsub.
  split; [done|]. split.
  - intros x Hx. pose proof (elem_of_sublist _ _ _ Hx Hsub) as Hin.
    apply elem_of_app in Hin. tauto.
  - apply sublist_length in Hsub. rewrite length_app in Hsub.
    unfold shape0. lia.
Qed.
End Carried.

(** ** Arrays of one length stay paired *)

Section Paired.
Context {A : Type}.
Implicit Types (xs ys : list A).

Lemma slice_length_eq {C} xs (zs : list C) a b :
  length xs = length zs → length (slice xs a b) = length (slice zs a b).
Proof.
  intros E. unfold slice. rewrite !length_take, !length_drop. by rewrite E.
Qed.

Lemma slice_zip xs ys a b :
  length xs = length ys →
  slice (zip xs ys) a b = zip (slice xs a b) (slice ys a b).
Proof.
  intros E. unfold slice.
  rewrite length_zip_with, <- E, Nat.min_id.
  by rewrite zip_with_drop, zip_with_take.
Qed.

Lemma advance_zip B xs ys s :
  length xs = length ys →
  advance B (zip xs ys) s
  = (zip (advance B xs s).1 (advance B ys s).1, (advance B xs s).2)
  ∧ (advance B ys s).2 = (advance B xs s).2.
Proof.
  intros E. unfold advance, concatenate, shape0.
  rewrite length_zip_with, <- E, Nat.min_id.
  case_bool_decide; simpl; rewrite !slice_zip by done; [done|].
  split; [|done]. f_equal.
  symmetry. apply zip_with_app. by apply slice_length_eq.
Qed.

Lemma cursor_at_zip B xs ys k : ∀ s,
  length xs = length ys →
  cursor_at B (zip xs ys) s k = cursor_at B xs s k
  ∧ cursor_at B ys s k = cursor_at B xs s k.
Proof.
  induction k as [|k IH]; intros s E; [done|]. simpl.
  destruct (advance_zip B xs ys s E) as [-> ->]. simpl. by apply IH.
Qed.

Lemma batch_at_zip B xs ys s k :
  length xs = length ys →
  batch_at B (zip xs ys) s k = zip (batch_at B xs s k) (batch_at B ys s k).
Proof.
  intros E. unfold batch_at.
  destruct (cursor_at_zip B xs ys k s E) as [-> ->].
  by destruct (advance_zip B xs ys (cursor_at B xs s k) E) as [-> _].
Qed.

Lemma zip_fmap_seq {C D} (f : nat → C) (g : nat → D) js :
  zip (f <$> js) (g <$> js) = (λ j, (f j, g j)) <$> js.
Proof. induction js as [|j js IH]; csimpl; [done|]. by rewrite IH. Qed.

(** X3: two arrays of one length cycled together stay paired row by row,
    for any batch size: their two cursors are equal after every call, the
    two batches of a call have the same number of rows, and zipping them
    gives the batch of the zipped array cycled alone. *)
Theorem generator_pairs_aligned xs ys B k :
  length xs = length ys →
  ∃ yields g' zipped start,
    pulls k (generator [xs; ys] B) = Some (yields, g') ∧
    starts g' = [start; start] ∧
    length (pairs yields) = k ∧
    Forall (λ pair, length pair.1 = length pair.2) (pairs yields) ∧
    pulls k (generator [zip xs ys] B)
    = Some (zipped, Gen [zip xs ys] B [start]) ∧
    column 0 zipped = (λ pair, zip pair.1 pair.2) <$> pairs yields.
Proof.
  intros E.
  destruct (pulls_generator [xs; ys] B k)
    as (yields & g' & Hrun & _ & _ & Hlen & _ & _ & Hslot).
  destruct (Hslot 0%nat xs eq_refl) as (Hc0 & Hcol0 & _).
  destruct (Hslot 1%nat ys eq_refl) as (Hc1 & Hcol1 & _).
  destruct (cursor_at_zip B xs ys k 0 E) as [Hcz Hcy].
  eexists yields, g', _, (cursor_at B xs 0 k).
  split; [done|]. split; [|split; [|split; [|split]]].
  - destruct (starts g') as [|s0 [|s1 [|s2 rest]]]; simpl in Hlen; try lia.
    simpl in Hc0, Hc1. injection Hc0 as ->. injection Hc1 as ->.
    by rewrite Hcy.
  - unfold pairs. rewrite Hcol0, Hcol1, zip_fmap_seq.
    by rewrite length_fmap, length_seq.
  - unfold pairs. rewrite Hcol0, Hcol1, zip_fmap_seq.
    apply Forall_fmap, Forall_forall. intros j _. simpl.
    pose proof (f_equal length (batch_at_zip B xs ys 0 j E)) as Hz.
    unfold batch_at in *.
    destruct (cursor_at_zip B xs ys j 0 E) as [_ Hy]. rewrite Hy.
    clear Hz.
    generalize (cursor_at B xs 0 j). intros s.
    unfold advance, concatenate, shape0. rewrite <- E.
    case_bool_decide; simpl; rewrite ?length_app;
      rewrite !(slice_length_eq xs ys) by done; done.
  - rewrite <- Hcz. apply pulls_single.
  - rewrite column_single. unfold pairs.
    rewrite Hcol0, Hcol1, zip_fmap_seq, <- list_fmap_compose.
    apply list_fmap_ext. intros _ j _. simpl. by apply batch_at_zip.
Qed.
End Paired.

(** ** The batches are the array repeated without end, cut every [B] rows *)

Section Stream.
Context {A : Type}.
Implicit Types (l : list A) (arrs : list (list A)).

Lemma cycled_S n l : cycled (S n) l = l ++ cycled n l.
Proof. done. Qed.

Lemma cycled_add n m l : cycled (n + m) l = cycled n l ++ cycled m l.
Proof. unfold cycled. by rewrite replicate_add, concat_app. Qed.

Lemma length_cycled n l : length (cycled n l) = (n * length l)%nat.
Proof.
  induction n as [|n IH]; [done|].
  rewrite cycled_S, length_app, IH. lia.
Qed.

Lemma stream_from B l k : ∀ s m,
  1 ≤ B ≤ shape0 l → 0 ≤ s ≤ shape0 l → (k < m)%nat →
  concat (batch_at B l s <$> seq 0 k)
  = take (k * Z.to_nat B) (drop (Z.to_nat s) (cycled m l)).
Proof.
  induction k as [|k IH]; intros s m HB Hs Hm; [done|].
  rewrite batches_S. simpl concat.
  destruct m as [|m]; [lia|]. rewrite cycled_S.
  replace (S k * Z.to_nat B)%nat with (Z.to_nat B + k * Z.to_nat B)%nat by lia.
  rewrite <- take_take_drop, drop_drop.
  pose proof (advance_cursor_range B l s HB Hs) as Hs'.
  unfold shape0 in *. f_equal.
  - rewrite advance_batch_rotate by (unfold shape0; lia).
    rewrite rotate_small by lia.
    destruct m as [|m]; [lia|]. rewrite cycled_S.
    rewrite drop_app_le by lia.
    replace (drop (Z.to_nat s) l ++ l ++ cycled m l)
      with ((drop (Z.to_nat s) l ++ take (Z.to_nat s) l)
            ++ drop (Z.to_nat s) l ++ cycled m l)
      by (by rewrite <- !app_assoc, (app_assoc (take _ _)), take_drop).
    symmetry. apply take_app_le.
    rewrite length_app, length_drop, length_take. lia.
  - destruct (decide (s + B ≤ shape0 l)) as [Hfit|Hwrap]; unfold shape0 in *.
    + rewrite advance_fits in * by (unfold shape0; lia). simpl in *.
      rewrite (IH (s + B) (S m)) by (unfold shape0; lia).
      rewrite cycled_S. do 2 f_equal. lia.
    + rewrite advance_wraps in * by (unfold shape0; lia).
      unfold shape0 in *. simpl in *.
      rewrite (IH (s + B - Z.of_nat (length l)) m) by (unfold shape0; lia).
      f_equal.
      replace (Z.to_nat s + Z.to_nat B)%nat
        with (length l + Z.to_nat (s + B - Z.of_nat (length l)))%nat by lia.
      by rewrite drop_app_add.
Qed.

Lemma batch_at_closed B l j :
  1 ≤ B ≤ shape0 l →
  batch_at B l 0 j = take (Z.to_nat B) (rotate (j * Z.to_nat B) l).
Proof.
  intros HB. unfold batch_at.
  pose proof (cursor_at_range B l j 0 HB ltac:(lia)) as Hc.
  rewrite advance_batch_rotate by done. f_equal.
  apply rotate_mod. apply Nat2Z.inj.
  rewrite !Nat2Z.inj_mod, Z2Nat.id by lia.
  fold (shape0 l). rewrite cursor_at_mod.
  f_equal. lia.
Qed.

Lemma cursor_at_closed B l k :
  1 ≤ B ≤ shape0 l → (0 < k)%nat →
  cursor_at B l 0 k = (Z.of_nat k * B - 1) `mod` shape0 l + 1.
Proof.
  intros HB Hk.
  pose proof (cursor_at_range B l k 0 HB ltac:(lia)) as Hc.
  pose proof (cursor_at_pos B l k 0 HB ltac:(lia) Hk) as Hpos.
  pose proof (cursor_at_mod B l k 0) as Hmod.
  set (c := cursor_at B l 0 k) in *.
  assert ((c - 1) `mod` shape0 l = (Z.of_nat k * B - 1) `mod` shape0 l) as E.
  { rewrite <- (Zminus_mod_idemp_l c), Hmod, Zminus_mod_idemp_l.
    f_equal. }
  rewrite <- E. rewrite Z.mod_small by lia. lia.
Qed.

(** X4: for an array with [1 <= B <= L], the rows of its batches over
    [k] calls, laid end to end, are the first [k*B] rows of the array
    repeated [k] times: nothing is skipped, repeated out of turn or
    reordered. *)
Theorem generator_stream arrs B k i l :
  arrs !! i = Some l → 1 ≤ B ≤ shape0 l →
  ∃ yields g',
    pulls k (generator arrs B) = Some (yields, g') ∧
    concat (column i yields) = take (k * Z.to_nat B) (cycled k l).
Proof.
  intros Hl HB.
  destruct (pulls_generator arrs B k)
    as (yields & g' & Hrun & _ & _ & _ & _ & _ & Hslot).
  exists yields, g'. split; [done|].
  destruct (Hslot i l Hl) as (_ & -> & _).
  rewrite (stream_from B l k 0 (S k)) by (done || unfold shape0; lia).
  rewrite drop_0. replace (S k) with (k + 1)%nat by lia.
  rewrite cycled_add. apply take_app_le.
  rewrite length_cycled. unfold shape0 in *. nia.
Qed.

(** X5: for an array with [1 <= B <= L], batch [j] (counted from 0) is
    the first [B] rows of the array rotated by [j*B]: its row [r] is row
    [(j*B + r) mod L] of the array; and the cursor after [k >= 1] calls is
    [(k*B - 1) mod L + 1]. *)
Theorem generator_closed_form arrs B k i l :
  arrs !! i = Some l → 1 ≤ B ≤ shape0 l →
  ∃ yields g',
    pulls k (generator arrs B) = Some (yields, g') ∧
    starts g' !! i
    = Some (if decide (k = 0)%nat then 0
            else (Z.of_nat k * B - 1) `mod` shape0 l + 1) ∧
    column i yields
    = (λ j, take (Z.to_nat B) (rotate (j * Z.to_nat B) l)) <$> seq 0 k ∧
    ∀ j r batch,
      column i yields !! j = Some batch → (r < Z.to_nat B)%nat →
      batch !! r = l !! ((j * Z.to_nat B + r) `mod` length l)%nat.
Proof.
  intros Hl HB.
  destruct (pulls_generator arrs B k)
    as (yields & g' & Hrun & _ & _ & _ & _ & _ & Hslot).
  exists yields, g'. split; [done|].
  destruct (Hslot i l Hl) as (-> & -> & _).
  split; [|split].
  - f_equal. case_decide; [by subst|].
    apply cursor_at_closed; [done|lia].
  - apply list_fmap_ext. intros _ j _. by apply batch_at_closed.
  - intros j r batch Hj Hr.
    apply list_lookup_fmap_Some in Hj as (j' & -> & Hj').
    apply lookup_seq in Hj' as [-> _]. simpl.
    rewrite batch_at_closed by done.
    rewrite lookup_take_lt by done.
    rewrite lookup_rotate_r by (unfold shape0 in *; lia).
    f_equal. unfold rotate_nat_add.
    rewrite <- Nat2Z.inj_add, <- Nat2Z.inj_mod. apply Nat2Z.id.
Qed.

(** X6: when the batch size divides the length, [L = q*B], the batches
    never straddle the end: over [n*q] calls the rows of the batches laid
    end to end are exactly [n] copies of the array, and the cursor then
    rests on [L] (on 0 before any call). *)
Theorem generator_exact_epochs arrs B i l q n :
  arrs !! i = Some l → 1 ≤ B → (1 ≤ q)%nat → shape0 l = Z.of_nat q * B →
  ∃ yields g',
    pulls (n * q) (generator arrs B) = Some (yields, g') ∧
    concat (column i yields) = cycled n l ∧
    starts g' !! i = Some (if decide (n = 0)%nat then 0 else shape0 l).
Proof.
  intros Hl HB Hq HL.
  assert (1 ≤ B ≤ shape0 l) as HB' by nia.
  destruct (pulls_generator arrs B (n * q))
    as (yields & g' & Hrun & _ & _ & _ & _ & _ & Hslot).
  exists yields, g'. split; [done|].
  destruct (Hslot i l Hl) as (-> & -> & _). split.
  - rewrite (stream_from B l (n * q) 0 (n + S (n * q - n)))
      by (done || unfold shape0; lia || nia).
    rewrite drop_0, cycled_add. apply take_app_length'.
    rewrite length_cycled. unfold shape0 in *. nia.
  - f_equal. case_decide; [by subst|].
    rewrite cursor_at_closed by (done || nia).
    replace (Z.of_nat (n * q) * B - 1)
      with (shape0 l - 1 + (Z.of_nat n - 1) * shape0 l) by nia.
    rewrite Z_mod_plus_full, Z.mod_small by lia. lia.
Qed.

(** X7: for an array with [1 <= B <= L], the batches repeat with every
    period [p] for which [p*B] is a multiple of [L] (so with period [L] at
    the latest): batch [j + p] is batch [j]. *)
Theorem generator_periodic arrs B k i l p :
  arrs !! i = Some l → 1 ≤ B ≤ shape0 l →
  (Z.of_nat p * B) `mod` shape0 l = 0 →
  ∃ yields g',
    pulls k (generator arrs B) = Some (yields, g') ∧
    ∀ j batch batch',
      column i yields !! j = Some batch →
      column i yields !! (j + p)%nat = Some batch' →
      batch' = batch.
Proof.
  intros Hl HB Hp.
  destruct (pulls_generator arrs B k)
    as (yields & g' & Hrun & _ & _ & _ & _ & _ & Hslot).
  exists yields, g'. split; [done|].
  destruct (Hslot i l Hl) as (_ & -> & _).
  intros j batch batch' Hj Hjp.
  apply list_lookup_fmap_Some in Hj as (j1 & -> & Hj1).
  apply lookup_seq in Hj1 as [-> _].
  apply list_lookup_fmap_Some in Hjp as (j2 & -> & Hj2).
  apply lookup_seq in Hj2 as [-> _]. simpl.
  rewrite !batch_at_closed by done. f_equal.
  apply rotate_mod. apply Nat2Z.inj.
  rewrite !Nat2Z.inj_mod. fold (shape0 l).
  replace (Z.of_nat ((j + p) * Z.to_nat B))
    with (Z.of_nat (j * Z.to_nat B) + Z.of_nat p * B) by lia.
  rewrite <- Zplus_mod_idemp_r, Hp. f_equal. lia.
Qed.
End Stream.

(** ** Batch sizes outside [1 .. L] *)

Section Outside.
Context {A : Type}.
Implicit Types (l : list A) (arrs : list (list A)).

Lemma advance_zero l : advance 0 l 0 = ([], 0).
Proof.
  rewrite advance_fits by (unfold shape0; lia).
  by rewrite slice_between by lia.
Qed.

Lemma next_zero arrs :
  next (generator arrs 0)
  = Some (replicate (length arrs) [], generator arrs 0).
Proof.
  rewrite next_advance by apply generator_wf. simpl.
  rewrite !zip_with_replicate_r_eq by done.
  rewrite (fmap_const_replicate _ [])
    by (intros; unfold flip; by rewrite advance_zero).
  by rewrite (fmap_const_replicate _ 0)
    by (intros; unfold flip; by rewrite advance_zero).
Qed.

Lemma slice_negative_first l B :
  B < 0 → slice l (Some 0) (Some B) = take (Z.to_nat (shape0 l + B)) l.
Proof.
  intros HB. unfold slice, adjust_index, shape0. simpl.
  rewrite (bool_decide_true (B < 0)) by lia.
  rewrite (Z.min_l 0) by lia. rewrite drop_0. f_equal. lia.
Qed.

Lemma slice_negative_later l s B :
  s < 0 → B < 0 → slice l (Some s) (Some (s + B)) = [].
Proof.
  intros Hs HB. unfold slice, adjust_index. simpl.
  rewrite !bool_decide_true by lia.
  by replace (Z.to_nat _) with 0%nat by lia.
Qed.

Lemma cursor_at_negative B l k : B < 0 → cursor_at B l 0 k = Z.of_nat k * B.
Proof.
  intros HB. induction k as [|k IH]; [done|].
  rewrite cursor_at_S, IH.
  rewrite advance_fits by (unfold shape0; nia). simpl. lia.
Qed.

Lemma batch_at_negative B l j :
  B < 0 →
  batch_at B l 0 j
  = if decide (j = 0)%nat then take (Z.to_nat (shape0 l + B)) l else [].
Proof.
  intros HB. unfold batch_at. rewrite cursor_at_negative by done.
  rewrite advance_fits by (unfold shape0; nia). simpl.
  case_decide; subst.
  - by apply slice_negative_first.
  - apply slice_negative_later; nia.
Qed.

Lemma batch_at_oversized B l j :
  shape0 l < B →
  batch_at B l 0 j
  = drop (j * Z.to_nat (B - shape0 l)) l
    ++ take (S j * Z.to_nat (B - shape0 l)) l.
Proof.
  intros HB. unfold batch_at. rewrite cursor_at_oversized by done.
  pose proof (Zle_0_nat (length l)) as HL. fold (shape0 l) in HL.
  rewrite advance_wraps by nia. simpl.
  rewrite slice_from, slice_to by nia.
  do 2 f_equal; nia.
Qed.

(** X8: with batch size 0 nothing ever moves: every call yields one
    empty batch per array and leaves the generator as it was built. *)
Theorem generator_zero_batch_size arrs k :
  pulls k (generator arrs 0)
  = Some (replicate k (replicate (length arrs) []), generator arrs 0).
Proof.
  induction k as [|k IH]; [done|].
  simpl pulls. rewrite next_zero. simpl. by rewrite IH.
Qed.

(** X9: with a negative batch size no call raises; the first batch of an
    array is the array without its last [|B|] rows (the stop bound counts
    from the end), every later batch is empty, and the cursor after [k]
    calls is [k*B], ever further below zero. *)
Theorem generator_negative_batch_size arrs B k i l :
  arrs !! i = Some l → B < 0 →
  ∃ yields g',
    pulls k (generator arrs B) = Some (yields, g') ∧
    starts g' !! i = Some (Z.of_nat k * B) ∧
    column i yields
    = (λ j, if decide (j = 0)%nat
            then take (Z.to_nat (shape0 l + B)) l else []) <$> seq 0 k.
Proof.
  intros Hl HB.
  destruct (pulls_generator arrs B k)
    as (yields & g' & Hrun & _ & _ & _ & _ & _ & Hslot).
  exists yields, g'. split; [done|].
  destruct (Hslot i l Hl) as (-> & -> & _). split.
  - by rewrite cursor_at_negative.
  - apply list_fmap_ext. intros _ j _. by apply batch_at_negative.
Qed.

(** X10: with a batch size above the length of an array every call
    wraps: the cursor after [k] calls is [k*(B-L)], batch [j] is the tail
    from [j*(B-L)] followed by the prefix up to [(j+1)*(B-L)], never more
    than [2*L] rows, and once [j*(B-L) >= L] every batch is the whole
    array, [L] rows instead of [B]. *)
Theorem generator_oversized_settles arrs B k i l :
  arrs !! i = Some l → shape0 l < B →
  ∃ yields g',
    pulls k (generator arrs B) = Some (yields, g') ∧
    starts g' !! i = Some (Z.of_nat k * (B - shape0 l)) ∧
    column i yields
    = (λ j, drop (j * Z.to_nat (B - shape0 l)) l
            ++ take (S j * Z.to_nat (B - shape0 l)) l) <$> seq 0 k ∧
    ∀ j batch,
      column i yields !! j = Some batch →
      shape0 l ≤ Z.of_nat j * (B - shape0 l) →
      batch = l.
Proof.
  intros Hl HB.
  destruct (pulls_generator arrs B k)
    as (yields & g' & Hrun & _ & _ & _ & _ & _ & Hslot).
  exists yields, g'. split; [done|].
  destruct (Hslot i l Hl) as (-> & -> & _).
  split; [by rewrite cursor_at_oversized|]. split.
  - apply list_fmap_ext. intros _ j _. by apply batch_at_oversized.
  - intros j batch Hj Hpast.
    apply list_lookup_fmap_Some in Hj as (j' & -> & Hj').
    apply lookup_seq in Hj' as [-> _]. simpl.
    rewrite batch_at_oversized by done. unfold shape0 in *.
    rewrite drop_ge, take_ge by nia. done.
Qed.
End Outside.

(** ** The training cells *)

Section TrainingFacts.
Context {A Inf Info : Type}.
Variable update : Inf → list A → list A → Inf * Info.
Variable print_progress : Inf → Info → Inf.
Implicit Types (xs ys : list A) (data : gen A) (inference : Inf).

Lemma pulls_add j : ∀ k (g : gen A),
  pulls (j + k) g
  = '(first, g) ← pulls j g; '(rest, g) ← pulls k g; Some (first ++ rest, g).
Proof.
  induction j as [|j IH]; intros k g; simpl.
  - by destruct (pulls k g) as [[rest g']|].
  - destruct (next g) as [[batches g1]|]; [|done]. simpl.
    rewrite IH. destruct (pulls j g1) as [[first g2]|]; [|done]. simpl.
    by destruct (pulls k g2) as [[rest g3]|].
Qed.

Lemma next_two data xs ys :
  arrays data = [xs; ys] → wf data →
  ∃ X_batch y_batch data1,
    next data = Some ([X_batch; y_batch], data1) ∧
    arrays data1 = [xs; ys] ∧ wf data1.
Proof.
  intros Ha Hwf. rewrite next_advance by done.
  unfold wf in Hwf. rewrite Ha in *.
  destruct (starts data) as [|s0 [|s1 [|s2 rest]]]; simpl in Hwf; try lia.
  simpl. eexists _, _, _. split; [done|]. by split.
Qed.

Lemma next_not_two data batches data1 :
  wf data → next data = Some (batches, data1) →
  length batches = length (arrays data).
Proof.
  intros Hwf. rewrite next_advance by done. intros [= <- _].
  unfold wf in Hwf. rewrite length_zip_with. lia.
Qed.

Lemma pairs_cons (X_batch y_batch : list A) yields :
  pairs ([X_batch; y_batch] :: yields) = (X_batch, y_batch) :: pairs yields.
Proof. done. Qed.

Lemma update_times_Some m X_batch y_batch : ∀ inference info,
  ∃ inference' info',
    update_times update m X_batch y_batch inference (Some info)
    = (inference', Some info').
Proof.
  induction m as [|m IH]; intros inference info; simpl; [by eexists _, _|].
  destruct (update inference X_batch y_batch) as [inference1 info1].
  apply IH.
Qed.

Lemma train_turns_fold xs ys n : ∀ data inference info_dict,
  arrays data = [xs; ys] → wf data →
  ∃ yields data' info_dict',
    pulls n data = Some (yields, data') ∧
    arrays data' = [xs; ys] ∧ wf data' ∧
    train_turns update print_progress n data inference info_dict
    = Some (data', foldl (feed_once update print_progress) inference
                         (pairs yields), info_dict').
Proof.
  induction n as [|n IH]; intros data inference info_dict Ha Hwf.
  - eexists [], data, info_dict. by repeat split.
  - destruct (next_two data xs ys Ha Hwf)
      as (X_batch & y_batch & data1 & Hnext & Ha1 & Hwf1).
    simpl. unfold next_pair. rewrite Hnext. simpl.
    destruct (update inference X_batch y_batch) as [inference1 info] eqn:Hup.
    destruct (IH data1 (print_progress inference1 info) (Some info) Ha1 Hwf1)
      as (yields & data' & info' & Hrun & Ha' & Hwf' & Htrain).
    rewrite Hrun. simpl. eexists _, data', info'.
    split; [done|]. split; [done|]. split; [done|].
    rewrite Htrain, pairs_cons. simpl.
    assert (feed_once update print_progress inference (X_batch, y_batch)
            = print_progress inference1 info) as ->
      by (unfold feed_once; simpl; by rewrite Hup).
    done.
Qed.

Lemma update_times_S m X_batch y_batch inference info_dict :
  ∃ inference' info',
    update_times update (S m) X_batch y_batch inference info_dict
    = (inference', Some info') ∧
    update_times update (S m) X_batch y_batch inference None
    = (inference', Some info').
Proof.
  simpl. destruct (update inference X_batch y_batch) as [inference1 info1].
  destruct (update_times_Some m X_batch y_batch inference1 info1)
    as (inference' & info' & E).
  by exists inference', info'.
Qed.

Lemma train_repeated_turns_S n data inference info_dict :
  train_repeated_turns update print_progress (S n) data inference info_dict
  = '(X_batch, y_batch, data) ← next_pair data;
    let '(inference, info_dict) :=
      update_times update 10 X_batch y_batch inference info_dict in
    info ← info_dict;
    train_repeated_turns update print_progress n data
      (print_progress inference info) (Some info).
Proof. done. Qed.

Lemma train_repeated_turns_fold xs ys n : ∀ data inference info_dict,
  arrays data = [xs; ys] → wf data →
  ∃ yields data' info_dict',
    pulls n data = Some (yields, data') ∧
    arrays data' = [xs; ys] ∧ wf data' ∧
    train_repeated_turns update print_progress n data inference info_dict
    = Some (data', foldl (feed_ten update print_progress) inference
                         (pairs yields), info_dict').
Proof.
  induction n as [|n IH]; intros data inference info_dict Ha Hwf.
  - eexists [], data, info_dict. by repeat split.
  - destruct (next_two data xs ys Ha Hwf)
      as (X_batch & y_batch & data1 & Hnext & Ha1 & Hwf1).
    rewrite train_repeated_turns_S. unfold next_pair. rewrite Hnext.
    simpl pulls. rewrite Hnext. cbn [mbind option_bind].
    destruct (update_times_S 9 X_batch y_batch inference info_dict)
      as (inference2 & info2 & Hten & Hten').
    rewrite Hten. cbn [mbind option_bind].
    destruct (IH data1 (print_progress inference2 info2) (Some info2) Ha1 Hwf1)
      as (yields & data' & info' & Hrun & Ha' & Hwf' & Htrain).
    rewrite Hrun. cbn [mbind option_bind]. eexists _, data', info'.
    split; [done|]. split; [done|]. split; [done|].
    rewrite Htrain, pairs_cons. cbn [foldl].
    assert (feed_ten update print_progress inference (X_batch, y_batch)
            = print_progress inference2 info2) as ->
      by (unfold feed_ten; cbn [fst snd]; by rewrite Hten').
    done.
Qed.

(** X12: drawing a pair from a generator built over any number of
    arrays other than two raises (the unpacking fails), so both training
    cells fail on their first turn. *)
Theorem train_needs_two_arrays arrs B n_iter inference info_dict :
  length arrs ≠ 2%nat →
  next_pair (generator arrs B) = None ∧
  (1 ≤ n_iter →
     train update print_progress n_iter (generator arrs B)
           inference info_dict = None) ∧
  (10 ≤ n_iter →
     train_repeated update print_progress n_iter (generator arrs B)
                    inference info_dict = None).
Proof.
  intros Hlen.
  assert (next_pair (generator arrs B) = None) as Hnone.
  { unfold next_pair.
    destruct (next (generator arrs B)) as [[batches data1]|] eqn:Hnext;
      [|done].
    apply next_not_two in Hnext; [|apply generator_wf]. simpl in *.
    by destruct batches as [|b0 [|b1 [|b2 rest]]]; simpl in *; try lia. }
  split; [done|]. split.
  - intros Hn. unfold train.
    destruct (Z.to_nat n_iter) as [|n] eqn:E; [lia|].
    simpl. by rewrite Hnone.
  - intros Hn. unfold train_repeated.
    assert (1 ≤ n_iter `div` 10) by (apply Z.div_le_lower_bound; lia).
    destruct (Z.to_nat (n_iter `div` 10)) as [|n] eqn:E; [lia|].
    simpl. by rewrite Hnone.
Qed.

(** X13: the second training cell goes on where the first one stopped.
    Run one after the other on the one generator over two arrays, the
    second with an inference object of its own, they draw
    [n1 + n2 // 10] pairs in all (for counts that are not negative): the
    first cell is fed the first [n1] pairs once each, the second cell the
    pairs after those ten times each, and the generator ends where that
    many draws leave it. *)
Theorem train_cells_share_generator xs ys B n1 n2
    inference1 inference2 info_dict :
  0 ≤ n1 → 0 ≤ n2 →
  ∃ yields data1 data2 info1 info2,
    pulls (Z.to_nat (n1 + n2 `div` 10)) (generator [xs; ys] B)
    = Some (yields, data2) ∧
    train update print_progress n1 (generator [xs; ys] B)
          inference1 info_dict
    = Some (data1,
            foldl (feed_once update print_progress) inference1
                  (take (Z.to_nat n1) (pairs yields)),
            info1) ∧
    train_repeated update print_progress n2 data1 inference2 info1
    = Some (data2,
            foldl (feed_ten update print_progress) inference2
                  (drop (Z.to_nat n1) (pairs yields)),
            info2).
Proof.
  intros Hn1 Hn2.
  assert (0 ≤ n2 `div` 10) as Hdiv by (apply Z.div_pos; lia).
  destruct (train_turns_fold xs ys (Z.to_nat n1) (generator [xs; ys] B)
              inference1 info_dict eq_refl (generator_wf _ _))
    as (first & data1 & info1 & Hrun1 & Ha1 & Hwf1 & Htrain1).
  destruct (train_repeated_turns_fold xs ys (Z.to_nat (n2 `div` 10)) data1
              inference2 info1 Ha1 Hwf1)
    as (rest & data2 & info2 & Hrun2 & _ & _ & Htrain2).
  destruct (pulls_generator [xs; ys] B (Z.to_nat n1))
    as (yields' & g' & Hrun' & _ & _ & _ & _ & _ & Hslot).
  rewrite Hrun1 in Hrun'. injection Hrun' as <- <-.
  destruct (Hslot 0%nat xs eq_refl) as (_ & Hcol0 & _).
  destruct (Hslot 1%nat ys eq_refl) as (_ & Hcol1 & _).
  assert (length (pairs first) = Z.to_nat n1) as Hlen.
  { unfold pairs. rewrite Hcol0, Hcol1, zip_fmap_seq.
    by rewrite length_fmap, length_seq. }
  assert (pairs (first ++ rest) = pairs first ++ pairs rest) as Happ.
  { unfold pairs, column. rewrite !omap_app. apply zip_with_app.
    unfold column in *. by rewrite Hcol0, Hcol1, !length_fmap. }
  exists (first ++ rest), data1, data2, info1, info2.
  rewrite Happ, take_app_length', drop_app_length' by done.
  split; [|by split].
  rewrite Z2Nat.inj_add by done. rewrite pulls_add, Hrun1. simpl.
  by rewrite Hrun2.
Qed.
End TrainingFacts.

(** * Further instances *)

(** One epoch and a half over five rows, three at a time. *)
Example stream_of_five :
  pulls 3 (generator [[0; 1; 2; 3; 4]%nat] 3)
  = Some ([ [[0; 1; 2]]; [[3; 4; 0]]; [[1; 2; 3]] ]%nat,
          Gen [[0; 1; 2; 3; 4]%nat] 3 [4]).
Proof. reflexivity. Qed.

(** A batch size above twice the length: two copies first, then the
    whole array each time. *)
Example oversized_settles :
  pulls 3 (generator [[0; 1]%nat] 5)
  = Some ([ [[0; 1; 0; 1]]; [[0; 1]]; [[0; 1]] ]%nat, Gen [[0; 1]%nat] 5 [9]).
Proof. reflexivity. Qed.

Lemma generator_batches_from_array_witness :
  [[10; 20; 30]; [1; 2]]%nat !! 1%nat = Some [1; 2]%nat ∧
  ∃ yields g',
    pulls 4 (generator [[10; 20; 30]; [1; 2]]%nat 7) = Some (yields, g') ∧
    length (starts g') = 2%nat ∧
    Forall (λ batch,
              batch `sublist_of` [1; 2; 1; 2]%nat ∧
              (∀ x, x ∈ batch → x ∈ [1; 2]%nat) ∧
              Z.of_nat (length batch) ≤ 2 * shape0 [1; 2]%nat)
           (column 1 yields).
Proof.
  split; [reflexivity|].
  destruct (generator_batches_from_array [[10; 20; 30]; [1; 2]]%nat 7 4)
    as (yields & g' & Hrun & Hlen & Hall).
  exists yields, g'. split; [exact Hrun|]. split; [exact Hlen|].
  exact (Hall 1%nat [1; 2]%nat eq_refl).
Defined.

Lemma generator_pairs_aligned_witness :
  length [10; 20; 30]%nat = length [1; 2; 3]%nat ∧
  ∃ yields g' zipped start,
    pulls 4 (generator [[10; 20; 30]; [1; 2; 3]]%nat 2) = Some (yields, g') ∧
    starts g' = [start; start] ∧
    length (pairs yields) = 4%nat ∧
    Forall (λ pair, length pair.1 = length pair.2) (pairs yields) ∧
    pulls 4 (generator [zip [10; 20; 30] [1; 2; 3]]%nat 2)
    = Some (zipped, Gen [zip [10; 20; 30] [1; 2; 3]]%nat 2 [start]) ∧
    column 0 zipped = (λ pair, zip pair.1 pair.2) <$> pairs yields.
Proof.
  split; [reflexivity|].
  exact (generator_pairs_aligned [10; 20; 30]%nat [1; 2; 3]%nat 2 4 eq_refl).
Defined.

Lemma generator_stream_witness :
  [[10; 20; 30]; [1; 2; 3; 4; 5]]%nat !! 1%nat = Some [1; 2; 3; 4; 5]%nat ∧
  1 ≤ 3 ≤ shape0 [1; 2; 3; 4; 5]%nat ∧
  ∃ yields g',
    pulls 4 (generator [[10; 20; 30]; [1; 2; 3; 4; 5]]%nat 3)
    = Some (yields, g') ∧
    concat (column 1 yields)
    = take (4 * Z.to_nat 3) (cycled 4 [1; 2; 3; 4; 5]%nat).
Proof.
  assert (1 ≤ 3 ≤ shape0 [1; 2; 3; 4; 5]%nat) as HB
    by (vm_compute; split; congruence).
  split; [reflexivity|]. split; [exact HB|].
  exact (generator_stream [[10; 20; 30]; [1; 2; 3; 4; 5]]%nat 3 4 1
           [1; 2; 3; 4; 5]%nat eq_refl HB).
Defined.

Lemma generator_closed_form_witness :
  [[1; 2; 3; 4; 5]%nat] !! 0%nat = Some [1; 2; 3; 4; 5]%nat ∧
  1 ≤ 3 ≤ shape0 [1; 2; 3; 4; 5]%nat ∧
  ∃ yields g',
    pulls 4 (generator [[1; 2; 3; 4; 5]%nat] 3) = Some (yields, g') ∧
    starts g' !! 0%nat
    = Some (if decide (4 = 0)%nat then 0
            else (Z.of_nat 4 * 3 - 1) `mod` shape0 [1; 2; 3; 4; 5]%nat + 1) ∧
    column 0 yields
    = (λ j, take (Z.to_nat 3) (rotate (j * Z.to_nat 3) [1; 2; 3; 4; 5]%nat))
      <$> seq 0 4 ∧
    ∀ j r batch,
      column 0 yields !! j = Some batch → (r < Z.to_nat 3)%nat →
      batch !! r
      = [1; 2; 3; 4; 5]%nat
        !! ((j * Z.to_nat 3 + r) `mod` length [1; 2; 3; 4; 5]%nat)%nat.
Proof.
  assert (1 ≤ 3 ≤ shape0 [1; 2; 3; 4; 5]%nat) as HB
    by (vm_compute; split; congruence).
  split; [reflexivity|]. split; [exact HB|].
  exact (generator_closed_form [[1; 2; 3; 4; 5]%nat] 3 4 0
           [1; 2; 3; 4; 5]%nat eq_refl HB).
Defined.

Lemma generator_exact_epochs_witness :
  [[1; 2; 3; 4; 5; 6]%nat] !! 0%nat = Some [1; 2; 3; 4; 5; 6]%nat ∧
  1 ≤ 2 ∧ (1 ≤ 3)%nat ∧ shape0 [1; 2; 3; 4; 5; 6]%nat = Z.of_nat 3 * 2 ∧
  ∃ yields g',
    pulls (2 * 3) (generator [[1; 2; 3; 4; 5; 6]%nat] 2) = Some (yields, g') ∧
    concat (column 0 yields) = cycled 2 [1; 2; 3; 4; 5; 6]%nat ∧
    starts g' !! 0%nat
    = Some (if decide (2 = 0)%nat then 0 else shape0 [1; 2; 3; 4; 5; 6]%nat).
Proof.
  split; [reflexivity|]. split; [lia|]. split; [lia|]. split; [reflexivity|].
  exact (generator_exact_epochs [[1; 2; 3; 4; 5; 6]%nat] 2 0
           [1; 2; 3; 4; 5; 6]%nat 3 2 eq_refl ltac:(lia) ltac:(lia) eq_refl).
Defined.

Lemma generator_periodic_witness :
  [[1; 2; 3; 4]%nat] !! 0%nat = Some [1; 2; 3; 4]%nat ∧
  1 ≤ 3 ≤ shape0 [1; 2; 3; 4]%nat ∧
  (Z.of_nat 4 * 3) `mod` shape0 [1; 2; 3; 4]%nat = 0 ∧
  ∃ yields g',
    pulls 9 (generator [[1; 2; 3; 4]%nat] 3) = Some (yields, g') ∧
    ∀ j batch batch',
      column 0 yields !! j = Some batch →
      column 0 yields !! (j + 4)%nat = Some batch' →
      batch' = batch.
Proof.
  assert (1 ≤ 3 ≤ shape0 [1; 2; 3; 4]%nat) as HB
    by (vm_compute; split; congruence).
  split; [reflexivity|]. split; [exact HB|]. split; [reflexivity|].
  exact (generator_periodic [[1; 2; 3; 4]%nat] 3 9 0 [1; 2; 3; 4]%nat 4
           eq_refl HB eq_refl).
Defined.

Lemma generator_negative_batch_size_witness :
  [[1; 2; 3; 4]%nat] !! 0%nat = Some [1; 2; 3; 4]%nat ∧ -1 < 0 ∧
  ∃ yields g',
    pulls 3 (generator [[1; 2; 3; 4]%nat] (-1)) = Some (yields, g') ∧
    starts g' !! 0%nat = Some (Z.of_nat 3 * -1) ∧
    column 0 yields
    = (λ j, if decide (j = 0)%nat
            then take (Z.to_nat (shape0 [1; 2; 3; 4]%nat + -1)) [1; 2; 3; 4]%nat
            else []) <$> seq 0 3.
Proof.
  split; [reflexivity|]. split; [lia|].
  exact (generator_negative_batch_size [[1; 2; 3; 4]%nat] (-1) 3 0
           [1; 2; 3; 4]%nat eq_refl ltac:(lia)).
Defined.

Lemma generator_oversized_settles_witness :
  [[1; 2]%nat] !! 0%nat = Some [1; 2]%nat ∧ shape0 [1; 2]%nat < 5 ∧
  ∃ yields g',
    pulls 3 (generator [[1; 2]%nat] 5) = Some (yields, g') ∧
    starts g' !! 0%nat = Some (Z.of_nat 3 * (5 - shape0 [1; 2]%nat)) ∧
    column 0 yields
    = (λ j, drop (j * Z.to_nat (5 - shape0 [1; 2]%nat)) [1; 2]%nat
            ++ take (S j * Z.to_nat (5 - shape0 [1; 2]%nat)) [1; 2]%nat)
      <$> seq 0 3 ∧
    ∀ j batch,
      column 0 yields !! j = Some batch →
      shape0 [1; 2]%nat ≤ Z.of_nat j * (5 - shape0 [1; 2]%nat) →
      batch = [1; 2]%nat.
Proof.
  assert (shape0 [1; 2]%nat < 5) as HB by (vm_compute; congruence).
  split; [reflexivity|]. split; [exact HB|].
  exact (generator_oversized_settles [[1; 2]%nat] 5 3 0 [1; 2]%nat eq_refl HB).
Defined.

Lemma train_needs_two_arrays_witness :
  length [[1; 2; 3]%nat] ≠ 2%nat ∧ 1 ≤ 5 ∧ 10 ≤ 20 ∧
  next_pair (generator [[1; 2; 3]%nat] 2) = None ∧
  train (λ seen X_batch _, (seen + length X_batch, length X_batch)%nat)
        (λ seen _, seen) 5 (generator [[1; 2; 3]%nat] 2) 0%nat None = None ∧
  train_repeated (λ seen X_batch _, (seen + length X_batch, length X_batch)%nat)
        (λ seen _, seen) 20 (generator [[1; 2; 3]%nat] 2) 0%nat None = None.
Proof.
  assert (length [[1; 2; 3]%nat] ≠ 2%nat) as Hlen by (simpl; lia).
  split; [exact Hlen|]. split; [lia|]. split; [lia|].
  destruct (train_needs_two_arrays
              (λ seen X_batch _, (seen + length X_batch, length X_batch)%nat)
              (λ seen _, seen) [[1; 2; 3]%nat] 2 5 0%nat None Hlen)
    as (Hpair & Htrain & _).
  destruct (train_needs_two_arrays
              (λ seen X_batch _, (seen + length X_batch, length X_batch)%nat)
              (λ seen _, seen) [[1; 2; 3]%nat] 2 20 0%nat None Hlen)
    as (_ & _ & Hrep).
  split; [exact Hpair|]. split; [exact (Htrain ltac:(lia))|].
  exact (Hrep ltac:(lia)).
Defined.

Lemma train_cells_share_generator_witness :
  0 ≤ 2 ∧ 0 ≤ 20 ∧
  ∃ yields data1 data2 info1 info2,
    pulls (Z.to_nat (2 + 20 `div` 10)) (generator [[1; 2; 3]; [4; 5; 6]]%nat 2)
    = Some (yields, data2) ∧
    train (λ seen X_batch _, (seen + length X_batch, length X_batch)%nat)
          (λ seen _, seen) 2 (generator [[1; 2; 3]; [4; 5; 6]]%nat 2)
          0%nat None
    = Some (data1,
            foldl (feed_once
                     (λ seen X_batch _,
                        (seen + length X_batch, length X_batch)%nat)
                     (λ seen _, seen)) 0%nat
                  (take (Z.to_nat 2) (pairs yields)),
            info1) ∧
    train_repeated
      (λ seen X_batch _, (seen + length X_batch, length X_batch)%nat)
      (λ seen _, seen) 20 data1 100%nat info1
    = Some (data2,
            foldl (feed_ten
                     (λ seen X_batch _,
                        (seen + length X_batch, length X_batch)%nat)
                     (λ seen _, seen)) 100%nat
                  (drop (Z.to_nat 2) (pairs yields)),
            info2).
Proof.
  split; [lia|]. split; [lia|].
  exact (train_cells_share_generator
           (λ seen X_batch _, (seen + length X_batch, length X_batch)%nat)
           (λ seen _, seen) [1; 2; 3]%nat [4; 5; 6]%nat 2 2 20
           0%nat 100%nat None ltac:(lia) ltac:(lia)).
Defined.

(** The two cells on three rows, two at a time, with an [update] that
    counts the rows it was fed. *)
Example train_counts_rows :
  train (λ seen X_batch _, (seen + length X_batch, length X_batch)%nat)
        (λ seen _, seen) 3 (generator [[1; 2; 3]; [4; 5; 6]]%nat 2) 0%nat None
  = Some (Gen [[1; 2; 3]; [4; 5; 6]]%nat 2 [3; 3], 6%nat, Some 2%nat).
Proof. reflexivity. Qed.

Example train_repeated_counts_rows :
  train_repeated (λ seen X_batch _, (seen + length X_batch, length X_batch)%nat)
        (λ seen _, seen) 25 (generator [[1; 2; 3]; [4; 5; 6]]%nat 2) 0%nat None
  = Some (Gen [[1; 2; 3]; [4; 5; 6]]%nat 2 [1; 1], 40%nat, Some 2%nat).
Proof. reflexivity. Qed.
